(** * final_market_share.py: a network technology-choice model

    Shallow embedding of the Agent / Simulation classes and of the
    statistics helper [largest_and_second_largest_MS].

    - Python dictionaries are [gmap]s, Python integers are [Z], exceptions
      are an error result.
    - The shares [count / n_agents] and the choice probabilities are exact
      rationals [Q] where Python has floats.
    - The choice-function exponent is a non-negative integer (the default
      is the integer 2), so that [c ** exponent] is Python's exact integer
      power; [0 ** 0] is [1] there as it is here.
    - numpy's global generator is an explicit state, a stream of raw draws
      with a cursor, threaded through every call that draws from it.  The
      primitives of [np.random] are small models with numpy's interface:
      what is proved about the simulation uses only their ranges.
    - networkx is a parameter: a record of the three generators the
      constructor calls.  Agents live in [agents_list]; a node of the graph
      refers to its agent by index, which is the agent's [id_number]. *)

From Stdlib Require Import ZArith QArith Lia Lqa List Permutation Sorted.
From stdpp Require Import gmap strings list fin_maps sorting.

Local Open Scope Z_scope.

(** ** Python exceptions and the result of a fallible call *)

Inductive exn : Type :=
| AssertionError
| ValueError
| KeyError
| IndexError
| ZeroDivisionError
| NetworkXError.

Inductive result (A : Type) : Type :=
| Ok (a : A)
| Raise (e : exn).
Arguments Ok {A} a.
Arguments Raise {A} e.

Definition rbind {A B} (r : result A) (f : A → result B) : result B :=
  match r with
  | Ok a => f a
  | Raise e => Raise e
  end.

Definition is_Ok {A} (r : result A) : Prop :=
  match r with Ok _ => True | Raise _ => False end.

(** ** numpy's generator

    The generator is a stream of raw integers together with a cursor; a
    seed fixes the stream.  Every primitive reads the raw values under the
    cursor and advances it. *)

Record RandomState : Type := mkRandomState {
  bits : nat → Z;
  cursor : nat
}.

(** Computations that draw from the generator and may raise. *)
Definition M (A : Type) : Type := RandomState → result (A * RandomState).

Definition ret {A} (a : A) : M A := λ rs, Ok (a, rs).

Definition raise {A} (e : exn) : M A := λ _, Raise e.

Definition bind {A B} (m : M A) (f : A → M B) : M B :=
  λ rs, match m rs with
        | Ok (a, rs') => f a rs'
        | Raise e => Raise e
        end.

Definition lift {A} (r : result A) : M A :=
  λ rs, match r with Ok a => Ok (a, rs) | Raise e => Raise e end.

Declare Scope py_scope.
Delimit Scope py_scope with py.
Notation "'let*' x ':=' m 'in' k" := (bind m (λ x, k))
  (at level 10, x pattern, m at level 100, k at level 200) : py_scope.
Notation "'let+' x ':=' r 'in' k" := (rbind r (λ x, k))
  (at level 10, x pattern, r at level 100, k at level 200) : py_scope.
Local Open Scope py_scope.

(** Monadic left fold: a Python [for] loop over a list whose body may
    draw and may raise. *)
Fixpoint for_each {A S} (body : A → S → M S) (l : list A) (s : S) : M S :=
  match l with
  | [] => ret s
  | a :: l' => let* s' := body a s in for_each body l' s'
  end.

(** The same for bodies that only may raise. *)
Fixpoint for_each_r {A S} (body : A → S → result S) (l : list A) (s : S)
  : result S :=
  match l with
  | [] => Ok s
  | a :: l' =>
      match body a s with
      | Ok s' => for_each_r body l' s'
      | Raise e => Raise e
      end
  end.

(** A list comprehension whose element expression may raise. *)
Fixpoint comprehension {A B} (f : A → result B) (l : list A)
  : result (list B) :=
  match l with
  | [] => Ok []
  | a :: l' =>
      match f a with
      | Ok b =>
          match comprehension f l' with
          | Ok bs => Ok (b :: bs)
          | Raise e => Raise e
          end
      | Raise e => Raise e
      end
  end.

(** [range(n)] and [range(a, b)] on Python integers. *)
Definition py_range (n : Z) : list nat := seq 0 (Z.to_nat n).

Definition py_range2 (a b : Z) : list Z :=
  map (λ i, a + Z.of_nat i) (seq 0 (Z.to_nat (b - a))).

(** *** Primitives of [np.random] *)

Definition two53 : positive := (2 ^ 53)%positive.

Definition next_raw : M Z :=
  λ rs, Ok (bits rs (cursor rs), mkRandomState (bits rs) (S (cursor rs))).

(** [np.random.random()]: a 53-bit mantissa over 2^53, in [0, 1). *)
Definition np_random_random : M Q :=
  let* r := next_raw in ret (Qmake (r `mod` Zpos two53) two53).

(** A uniform index below [n]. *)
Definition np_random_randint (n : nat) : M nat :=
  let* r := next_raw in ret (Z.to_nat (r `mod` Z.of_nat n)).

(** [np.random.choice(a)]: one element, uniformly. *)
Definition np_random_choice {A} (a : list A) : M A :=
  match a with
  | [] => raise ValueError
  | _ =>
      let* i := np_random_randint (length a) in
      match a !! i with
      | Some x => ret x
      | None => raise IndexError
      end
  end.

(** Drawing [k] elements one after the other out of a shrinking pool. *)
Fixpoint draw_without_replacement {A} (k : nat) (pool : list A) : M (list A) :=
  match k with
  | O => ret []
  | S k' =>
      let* i := np_random_randint (length pool) in
      match pool !! i with
      | Some x =>
          let* rest := draw_without_replacement k' (delete i pool) in
          ret (x :: rest)
      | None => raise ValueError
      end
  end.

(** [np.random.choice(a, replace=False, size=size)]. *)
Definition np_random_choice_noreplace {A} (a : list A) (size : Z)
  : M (list A) :=
  if size <? 0 then raise ValueError
  else if Z.of_nat (length a) <? size then raise ValueError
  else draw_without_replacement (Z.to_nat size) a.

Definition Qlt_bool (x y : Q) : bool :=
  (Qnum x * Zpos (Qden y) <? Qnum y * Zpos (Qden x))%Z.

Definition Qsum (l : list Q) : Q := foldr Qplus 0%Q l.

(** [cdf.searchsorted(u, side='right')], with the cumulative sum kept in
    the accumulator: the number of leading cumulative sums that are [<= u]. *)
Fixpoint searchsorted_right (acc : Q) (p : list Q) (u : Q) : nat :=
  match p with
  | [] => O
  | x :: p' =>
      if Qle_bool (acc + x) u then S (searchsorted_right (acc + x) p' u)
      else O
  end.

(** [np.random.choice(a, p=p)]: numpy checks the probability vector, then
    inverts the cumulative distribution at one uniform draw. *)
Definition np_random_choice_p {A} (a : list A) (p : list Q) : M A :=
  match a with
  | [] => raise ValueError
  | _ =>
      if negb (length a =? length p)%nat then raise ValueError
      else if existsb (λ x, Qlt_bool x 0) p then raise ValueError
      else if negb (Qeq_bool (Qsum p) 1) then raise ValueError
      else
        let* u := np_random_random in
        match a !! searchsorted_right 0 p u with
        | Some x => ret x
        | None => raise IndexError
        end
  end.

(** ** Python dictionaries *)

Definition dict_get {V} (d : gmap nat V) (k : nat) : result V :=
  match d !! k with
  | Some v => Ok v
  | None => Raise KeyError
  end.

(** [d[k] += delta] *)
Definition dict_add (d : gmap nat Z) (k : nat) (delta : Z)
  : result (gmap nat Z) :=
  match d !! k with
  | Some v => Ok (<[k := v + delta]> d)
  | None => Raise KeyError
  end.

(** [{k: v for ...}]: a later binding of the same key replaces an earlier one. *)
Definition dict_of_items {V} (items : list (nat * V)) : gmap nat V :=
  foldl (λ d kv, <[kv.1 := kv.2]> d) ∅ items.

(** ** The network

    A graph on the nodes [0 .. order-1], stored as one adjacency list per
    node; node [i] carries agent [i]. *)

Abbreviation Graph := (list (list nat)).

Definition order (g : Graph) : nat := length g.

(** [nx.neighbors(G, n)] *)
Definition nx_neighbors (g : Graph) (n : nat) : result (list nat) :=
  match g !! n with
  | Some nbrs => Ok nbrs
  | None => Raise NetworkXError
  end.

(** The three generators of networkx that the constructor calls. *)
Record NetworkX : Type := mkNetworkX {
  erdos_renyi_graph : Z → Q → M Graph;
  barabasi_albert_graph : Z → Z → M Graph;
  connected_watts_strogatz_graph : Z → Z → Q → M Graph
}.

(** ** Agent

    [agent_exponent] is the agent's own [choice_function_exponent] field
    (the simulation has a field of that name too). *)

Record Agent : Type := mkAgent {
  id_number : nat;
  technology : option nat;
  agent_exponent : nat
}.

Definition get_technology (A : Agent) : option nat := technology A.

Definition set_technology (A : Agent) (tech : option nat) : Agent :=
  mkAgent (id_number A) tech (agent_exponent A).

(** ** Simulation *)

Record Simulation : Type := mkSimulation {
  n_agents : Z;
  t_max : Z;
  n_technologies : Z;
  n_initial_adopters : Z;
  reconsideration_probability : Q;
  choice_function_exponent : nat;
  technologies_list : list nat;
  tech_frequency : gmap nat Z;
  G : Graph;
  agents_list : list Agent;
  history_tech_frequency : gmap nat (list Q);
  history_t : list Z
}.

Definition get_technologies_list (S : Simulation) : list nat :=
  technologies_list S.

Definition with_agents (S : Simulation) (ags : list Agent) : Simulation :=
  mkSimulation (n_agents S) (t_max S) (n_technologies S)
    (n_initial_adopters S) (reconsideration_probability S)
    (choice_function_exponent S) (technologies_list S) (tech_frequency S)
    (G S) ags (history_tech_frequency S) (history_t S).

Definition with_tech_frequency (S : Simulation) (f : gmap nat Z)
  : Simulation :=
  mkSimulation (n_agents S) (t_max S) (n_technologies S)
    (n_initial_adopters S) (reconsideration_probability S)
    (choice_function_exponent S) (technologies_list S) f
    (G S) (agents_list S) (history_tech_frequency S) (history_t S).

Definition with_history (S : Simulation) (h : gmap nat (list Q))
  (ht : list Z) : Simulation :=
  mkSimulation (n_agents S) (t_max S) (n_technologies S)
    (n_initial_adopters S) (reconsideration_probability S)
    (choice_function_exponent S) (technologies_list S) (tech_frequency S)
    (G S) (agents_list S) h ht.

(** The agent object stored at a node: [G.nodes[N]["agent"]]. *)
Definition node_agent (S : Simulation) (N : nat) : result Agent :=
  match agents_list S !! N with
  | Some A => Ok A
  | None => Raise KeyError
  end.

(** Agent.get_neighbors *)
Definition get_neighbors (S : Simulation) (self : nat) : result (list Agent) :=
  match nx_neighbors (G S) self with
  | Ok nbrs => comprehension (node_agent S) nbrs
  | Raise e => Raise e
  end.

(** Python's [c ** exponent] on integers, for a non-negative integer
    exponent; [0 ** 0] is [1]. *)
Definition py_pow (c : Z) (exponent : nat) : Z := c ^ Z.of_nat exponent.

Definition Zsum (l : list Z) : Z := foldr Z.add 0 l.

(** The first loop of [choose]: technologies used by the direct neighbors. *)
Definition count_neighbor_technologies (tech_list : list nat)
  (neighbors : list Agent) : result (gmap nat Z) :=
  for_each_r
    (λ A d, match get_technology A with
            | Some tech => dict_add d tech 1
            | None => Ok d
            end)
    neighbors
    (dict_of_items (map (λ tech, (tech, 0)) tech_list)).

(** The unnormalised weights [tech_frequency[tech] ** exponent]. *)
Definition choice_weights (tech_list : list nat) (freq : gmap nat Z)
  (exponent : nat) : result (list Z) :=
  comprehension
    (λ tech, match dict_get freq tech with
             | Ok c => Ok (py_pow c exponent)
             | Raise e => Raise e
             end)
    tech_list.

(** [np.asarray(w) / np.sum(w)] *)
Definition normalise (w : list Z) : list Q :=
  map (λ x, (inject_Z x / inject_Z (Zsum w))%Q) w.

(** The weights [choose] computes for agent [me] from its neighborhood. *)
Definition neighborhood_weights (S : Simulation) (me : Agent)
  : result (list Z) :=
  let+ neighbors := get_neighbors S (id_number me) in
  let tech_list := get_technologies_list S in
  let+ freq := count_neighbor_technologies tech_list neighbors in
  choice_weights tech_list freq (agent_exponent me).

(** Agent.choose, for the agent stored at index [self].  Returns the
    simulation with the agent's technology updated, and the pair
    (previous technology, new technology). *)
Definition choose (S : Simulation) (self : nat)
  : M (Simulation * (option nat * option nat)) :=
  let* me := lift (node_agent S self) in
  let* tech_probability := lift (neighborhood_weights S me) in
  if 0 <? Zsum tech_probability then
    let p := normalise tech_probability in
    let old_tech := technology me in
    let* new_tech := np_random_choice_p (get_technologies_list S) p in
    ret (with_agents S
           (alter (λ A, set_technology A (Some new_tech)) self
              (agents_list S)),
         (old_tech, Some new_tech))
  else
    ret (S, (None, None)).

(** Python's true division of two integers. *)
Definition true_div (a b : Z) : result Q :=
  if b =? 0 then Raise ZeroDivisionError
  else Ok (inject_Z a / inject_Z b)%Q.

(** [l.pop()]: removes and returns the last element. *)
Definition list_pop {A} (l : list A) : result (A * list A) :=
  match last l with
  | Some x => Ok (x, removelast l)
  | None => Raise IndexError
  end.

(** The network generation at the head of the constructor. *)
Definition generate_network (nx : NetworkX) (network_type : string)
  (n : Z) : M Graph :=
  if String.eqb network_type "Erdos-Renyi" then
    erdos_renyi_graph nx n (1 # 10)
  else if String.eqb network_type "Barabasi-Albert" then
    barabasi_albert_graph nx n 40
  else if String.eqb network_type "Watts-Strogatz" then
    connected_watts_strogatz_graph nx n 40 (15 # 100)
  else raise AssertionError.

(** The state of the seeding loops: the adopters still to place, the
    agents, the counters. *)
Definition seeding : Type := list Agent * list Agent * gmap nat Z.

Definition seed_one (tech_list : list nat) (i : nat) (_ : nat)
  (st : seeding) : result seeding :=
  let '(early_adopters, agents, freq) := st in
  let+ (A, early_adopters') := list_pop early_adopters in
  match tech_list !! i with
  | Some tech =>
      Ok (early_adopters',
          alter (λ a, set_technology a (Some tech)) (id_number A) agents,
          freq)
  | None => Raise IndexError
  end.

Definition seed_technology (tech_list : list nat) (n_init : Z) (i : nat)
  (st : seeding) : result seeding :=
  let+ (early_adopters, agents, freq) :=
    for_each_r (seed_one tech_list i) (py_range n_init) st in
  let+ freq' := dict_add freq i n_init in
  Ok (early_adopters, agents, freq').

(** One share sample per technology: [tech_frequency[tech] / n_agents]. *)
Definition share (freq : gmap nat Z) (n : Z) (tech : nat) : result Q :=
  let+ c := dict_get freq tech in
  true_div c n.

(** Simulation.__init__ *)
Definition Simulation_init (nx : NetworkX)
  (n_agents n_technologies n_initial_adopters : Z)
  (reconsideration_probability : Q) (choice_function_exponent : nat)
  (network_type : string) (t_max : Z) : M Simulation :=
  let technologies_list := py_range n_technologies in
  let tech_frequency :=
    dict_of_items (map (λ tech, (tech, 0)) technologies_list) in
  let* G := generate_network nx network_type n_agents in
  let agents_list :=
    map (λ i, mkAgent i None choice_function_exponent)
      (py_range (Z.of_nat (order G))) in
  let n_early_adopters := n_technologies * n_initial_adopters in
  let* early_adopters :=
    np_random_choice_noreplace agents_list n_early_adopters in
  let* (_, agents_list, tech_frequency) :=
    lift (for_each_r (seed_technology technologies_list n_initial_adopters)
            (py_range n_technologies)
            (early_adopters, agents_list, tech_frequency)) in
  let* history_items :=
    lift (comprehension
            (λ tech, let+ q := share tech_frequency n_agents tech in
                     Ok (tech, [q]))
            technologies_list) in
  ret (mkSimulation n_agents t_max n_technologies n_initial_adopters
         reconsideration_probability choice_function_exponent
         technologies_list tech_frequency G agents_list
         (dict_of_items history_items) [0]).

(** The counter updates after a call of [choose]. *)
Definition update_counters (freq : gmap nat Z) (old new : option nat)
  : result (gmap nat Z) :=
  let+ freq1 := match old with
                | Some o => dict_add freq o (-1)
                | None => Ok freq
                end in
  match new with
  | Some n => dict_add freq1 n 1
  | None => Ok freq1
  end.

(** The recording loop: one sample appended per technology. *)
Definition record_shares (S : Simulation) : result (gmap nat (list Q)) :=
  for_each_r
    (λ i h, let+ q := share (tech_frequency S) (n_agents S) i in
            let+ hi := dict_get h i in
            Ok (<[i := hi ++ [q]]> h))
    (py_range (n_technologies S))
    (history_tech_frequency S).

(** The body of the time loop of [run]. *)
Definition step (t : Z) (S : Simulation) : M Simulation :=
  let* A := np_random_choice (agents_list S) in
  let tech := get_technology A in
  let* activated :=
    match tech with
    | None => ret true
    | Some _ =>
        let* u := np_random_random in
        ret (Qlt_bool u (reconsideration_probability S))
    end in
  let* S1 :=
    if activated : bool then
      let* (S', (old, new)) := choose S (id_number A) in
      let* freq := lift (update_counters (tech_frequency S') old new) in
      ret (with_tech_frequency S' freq)
    else ret S in
  let* h := lift (record_shares S1) in
  ret (with_history S1 h (history_t S1 ++ [t])).

(** Simulation.run *)
Definition run (S : Simulation) : M Simulation :=
  for_each step (py_range2 0 (t_max S + 1)) S.

(** The loop of [run] cut after its first [k] iterations. *)
Definition run_steps (k : nat) (S : Simulation) : M Simulation :=
  for_each step (take k (py_range2 0 (t_max S + 1))) S.

(** Simulation.return_results, without the plot. *)
Definition return_results (S : Simulation)
  : list Z * gmap nat (list Q) :=
  (history_t S, history_tech_frequency S).

(** ** The statistics helper *)

Global Instance Qle_decision (x y : Q) : Decision (x <= y)%Q.
Proof.
  destruct (Qlt_le_dec y x) as [Hlt | Hle].
  - right. intros Hle. exact (Qlt_not_le _ _ Hlt Hle).
  - left. exact Hle.
Defined.

Global Instance Qle_total : Total Qle.
Proof.
  intros x y. destruct (Qlt_le_dec y x) as [Hlt | Hle].
  - right. apply Qlt_le_weak, Hlt.
  - left. exact Hle.
Qed.

Global Instance Qle_transitive : Transitive Qle.
Proof. intros x y z. apply Qle_trans. Qed.

(** [np.sort]: a new array, ascending. *)
Definition np_sort (l : list Q) : list Q := merge_sort Qle l.

(** [a[-k]] for [k >= 1]: the k-th element from the end. *)
Definition index_from_end {A} (a : list A) (k : nat) : result A :=
  if (length a <? k)%nat then Raise IndexError
  else match a !! (length a - k)%nat with
       | Some x => Ok x
       | None => Raise IndexError
       end.

Definition largest_and_second_largest_MS (market_share : list Q)
  : result (Q * Q) :=
  let market_share := np_sort market_share in
  let+ lms := index_from_end market_share 1 in
  let+ slms := index_from_end market_share 2 in
  Ok (lms, slms).

(** Python's [max] and [min] of a list of numbers. *)
Definition py_max (l : list Q) : option Q :=
  match l with
  | [] => None
  | x :: l' => Some (foldl (λ m y, if Qlt_bool m y then y else m) x l')
  end.

Definition py_min (l : list Q) : option Q :=
  match l with
  | [] => None
  | x :: l' => Some (foldl (λ m y, if Qlt_bool y m then y else m) x l')
  end.

(** The same call with the arrays as objects on a heap: the caller's list
    lives at address [market_share]; [np.sort] allocates its result, and
    the assignment rebinds the local name only. *)
Abbreviation Heap := (gmap nat (list Q)).

Definition np_sort_alloc (h : Heap) (a : nat) : result nat * Heap :=
  match h !! a with
  | Some l =>
      let a' := fresh (dom h) in
      (Ok a', <[a' := np_sort l]> h)
  | None => (Raise ValueError, h)
  end.

Definition largest_and_second_largest_MS_call (h : Heap) (market_share : nat)
  : result (Q * Q) * Heap :=
  let '(r, h') := np_sort_alloc h market_share in
  (let+ market_share' := r in
   let+ sorted := dict_get h' market_share' in
   let+ lms := index_from_end sorted 1 in
   let+ slms := index_from_end sorted 2 in
   Ok (lms, slms), h').

(** ** A small network provider and seeded generators, to run the model *)

Definition stream_of (l : list Z) : nat → Z := λ i, nth i l 0.

Definition seeded (l : list Z) : RandomState := mkRandomState (stream_of l) 0.

(** The ring on [n] nodes: node [i] is adjacent to [i+1] and [i-1].  It
    is one of the graphs a random generator can deliver on a small
    population, and every agent has exactly two neighbors, which keeps the
    examples readable. *)
Definition ring_graph (n : Z) : Graph :=
  map (λ i, [((i + 1) mod Z.to_nat n)%nat;
             ((i + Z.to_nat n - 1) mod Z.to_nat n)%nat])
    (py_range n).

Definition ring_networkx : NetworkX :=
  mkNetworkX (λ n _, ret (ring_graph n))
             (λ n _, ret (ring_graph n))
             (λ n _ _, ret (ring_graph n)).

(** A small population to evaluate the model on: six agents on a ring,
    two technologies with one initial adopter each, and a given exponent. *)
Definition example_stream : list Z := [3; 1; 4; 1; 5; 9; 2; 6].

Definition empty_simulation : Simulation :=
  mkSimulation 0 0 0 0 0 0 [] ∅ [] [] ∅ [].

Definition example_simulation (exponent : nat) : Simulation :=
  match Simulation_init ring_networkx 6 2 1 (1 # 5) exponent "Erdos-Renyi" 3
          (seeded example_stream) with
  | Ok (sim, _) => sim
  | Raise _ => empty_simulation
  end.

(** ** Notions used to state the properties *)

(** The generator after one raw draw. *)
Definition advance (rs : RandomState) : RandomState :=
  mkRandomState (bits rs) (S (cursor rs)).

(** The number of agents that hold technology [t]. *)
Definition count_tech (t : nat) (agents : list Agent) : Z :=
  Z.of_nat (length (filter (λ a, technology a = Some t) agents)).

(** The sum over all technologies of the frequency counters. *)
Definition total_frequency (S : Simulation) : Z :=
  Zsum (map (λ t, default 0 (tech_frequency S !! t)) (technologies_list S)).

(** The technology held by the agent of node [i]. *)
Definition agent_technology (S : Simulation) (i : nat) : option nat :=
  match agents_list S !! i with
  | Some A => technology A
  | None => None
  end.

(** Every adjacency list names nodes of the graph. *)
Definition graph_wf (g : Graph) : Prop :=
  Forall (Forall (λ j, (j < order g)%nat)) g.

Definition known_network_type (network_type : string) : Prop :=
  network_type = "Erdos-Renyi" ∨ network_type = "Barabasi-Albert" ∨
  network_type = "Watts-Strogatz".

(** The parameter ranges the interface documents. *)
Definition valid_configuration (n_agents n_technologies n_initial_adopters : Z)
  (reconsideration_probability : Q) (network_type : string) (t_max : Z)
  : Prop :=
  0 < n_agents ∧ 2 ≤ n_technologies ∧ 1 ≤ n_initial_adopters ∧
  n_technologies * n_initial_adopters ≤ n_agents ∧
  (0 <= reconsideration_probability)%Q ∧
  (reconsideration_probability <= 1)%Q ∧
  known_network_type network_type ∧ 0 ≤ t_max.

(** The simulation after agent [i] took up technology [new]. *)
Definition adopt (S : Simulation) (i new : nat) : Simulation :=
  with_agents S
    (alter (λ A, set_technology A (Some new)) i (agents_list S)).

(** The share recorded for technology [t]. *)
Definition share_of (S : Simulation) (t : nat) : Q :=
  (inject_Z (count_tech t (agents_list S)) / inject_Z (n_agents S))%Q.

(** What holds of a simulation between two steps: it is established by
    the constructor and kept by every iteration of the time loop. *)
Record sim_inv (S : Simulation) : Prop := mk_sim_inv {
  inv_n_pos : 0 < n_agents S;
  inv_agents_len : Z.of_nat (length (agents_list S)) = n_agents S;
  inv_order : order (G S) = length (agents_list S);
  inv_wf : graph_wf (G S);
  inv_ids : ∀ i A, agents_list S !! i = Some A → id_number A = i;
  inv_exponent : ∀ i A, agents_list S !! i = Some A →
                        agent_exponent A = choice_function_exponent S;
  inv_tl : technologies_list S = py_range (n_technologies S);
  inv_tech : ∀ i A t, agents_list S !! i = Some A →
                      technology A = Some t → t ∈ technologies_list S;
  inv_freq : ∀ t, t ∈ technologies_list S →
                  tech_frequency S !! t
                  = Some (count_tech t (agents_list S));
  inv_hist_keys : ∀ t, t ∈ technologies_list S →
                       is_Some (history_tech_frequency S !! t);
  inv_hist_range : ∀ t h, history_tech_frequency S !! t = Some h →
                          Forall (λ q, (0 <= q)%Q ∧ (q <= 1)%Q) h;
  inv_hist_dom : ∀ t, is_Some (history_tech_frequency S !! t) →
                      t ∈ technologies_list S
}.

(** What holds of the seeding state: the adopters still to place are
    distinct agents that have no technology yet. *)
Definition seed_inv (tl : list nat) (st : seeding) : Prop :=
  let '(ea, ags, _) := st in
  (∀ j a, ags !! j = Some a → id_number a = j) ∧
  NoDup (map id_number ea) ∧
  (∀ A, A ∈ ea → ∃ a, ags !! id_number A = Some a ∧ technology a = None) ∧
  (∀ j a t, ags !! j = Some a → technology a = Some t → t ∈ tl).

(** What an activation leaves as it was: the parameters and the history. *)
Definition same_frame (S S' : Simulation) : Prop :=
  n_agents S' = n_agents S ∧ t_max S' = t_max S ∧
  n_technologies S' = n_technologies S ∧
  reconsideration_probability S' = reconsideration_probability S ∧
  technologies_list S' = technologies_list S ∧
  history_tech_frequency S' = history_tech_frequency S ∧
  history_t S' = history_t S.

(** What one iteration of the time loop does to a simulation. *)
Record step_rel (t : Z) (S S' : Simulation) : Prop := mk_step_rel {
  sr_n_agents : n_agents S' = n_agents S;
  sr_t_max : t_max S' = t_max S;
  sr_n_technologies : n_technologies S' = n_technologies S;
  sr_probability :
    reconsideration_probability S' = reconsideration_probability S;
  sr_technologies : technologies_list S' = technologies_list S;
  sr_time : history_t S' = history_t S ++ [t];
  sr_hist : ∀ tech, tech ∈ technologies_list S →
      ∃ h q, history_tech_frequency S !! tech = Some h ∧
             history_tech_frequency S' !! tech = Some (h ++ [q]);
  sr_keep : (reconsideration_probability S == 0)%Q →
      ∀ i tech, agent_technology S i = Some tech →
                agent_technology S' i = Some tech
}.

(** What the iterations for the time values [ts] do to a simulation. *)
Record run_rel (ts : list Z) (S S' : Simulation) : Prop := mk_run_rel {
  rr_n_agents : n_agents S' = n_agents S;
  rr_t_max : t_max S' = t_max S;
  rr_n_technologies : n_technologies S' = n_technologies S;
  rr_probability :
    reconsideration_probability S' = reconsideration_probability S;
  rr_technologies : technologies_list S' = technologies_list S;
  rr_time : history_t S' = history_t S ++ ts;
  rr_hist : ∀ tech, tech ∈ technologies_list S →
      ∃ h h2, history_tech_frequency S !! tech = Some h ∧
              history_tech_frequency S' !! tech = Some (h ++ h2) ∧
              length h2 = length ts;
  rr_keep : (reconsideration_probability S == 0)%Q →
      ∀ i tech, agent_technology S i = Some tech →
                agent_technology S' i = Some tech
}.

(** Two generator states that yield the same draws: the same cursor on
    streams that agree everywhere (what one seed gives twice). *)
Definition rs_equiv (r1 r2 : RandomState) : Prop :=
  cursor r1 = cursor r2 ∧ ∀ i, bits r1 i = bits r2 i.

(** Two calls that either raise the same exception, or return the same
    value and leave the generators yielding the same draws. *)
Definition same_outcome {A} (x y : result (A * RandomState)) : Prop :=
  match x, y with
  | Ok (a1, r1), Ok (a2, r2) => a1 = a2 ∧ rs_equiv r1 r2
  | Raise e1, Raise e2 => e1 = e2
  | _, _ => False
  end.

(** A computation whose outcome is a function of the draws only. *)
Definition deterministic {A} (m : M A) : Prop :=
  ∀ r1 r2, rs_equiv r1 r2 → same_outcome (m r1) (m r2).

(** The network provider takes its randomness from the generator only. *)
Definition nx_deterministic (nx : NetworkX) : Prop :=
  (∀ n p, deterministic (erdos_renyi_graph nx n p)) ∧
  (∀ n m, deterministic (barabasi_albert_graph nx n m)) ∧
  (∀ n k p, deterministic (connected_watts_strogatz_graph nx n k p)).

(** Construct, run, and return the results. *)
Definition simulate (nx : NetworkX)
  (n_agents n_technologies n_initial_adopters : Z)
  (reconsideration_probability : Q) (choice_function_exponent : nat)
  (network_type : string) (t_max : Z) : M (list Z * gmap nat (list Q)) :=
  let* S0 := Simulation_init nx n_agents n_technologies n_initial_adopters
               reconsideration_probability choice_function_exponent
               network_type t_max in
  let* Sf := run S0 in
  ret (return_results Sf).

(** ** Experiment

    The replication loop.  [analyse_results] only prints and plots float
    statistics of the two lists and is left out. *)

Record Experiment : Type := mkExperiment {
  network_type : string;
  agent_number : Z;
  number_of_replications : Z;
  list_largest_m_shares : list Q;
  list_second_largest_m_shares : list Q
}.

(** Experiment.__init__ *)
Definition Experiment_init (network_type : string)
  (agent_number number_of_replications : Z) : Experiment :=
  mkExperiment network_type agent_number number_of_replications [] [].

(** [d.keys()] of a dictionary whose keys were inserted in ascending
    order, as the keys [0 .. n_technologies-1] of the history are. *)
Definition dict_keys {V} (d : gmap nat V) : list nat :=
  merge_sort le (map fst (map_to_list d)).

(** The market shares of the last period: [history[-1]] for every key. *)
Definition last_market_shares (history_market_shares : gmap nat (list Q))
  : result (list Q) :=
  comprehension
    (λ key, let+ history := dict_get history_market_shares key in
            index_from_end history 1)
    (dict_keys history_market_shares).

(** The body of the replication loop of Experiment.run: a simulation
    with the default parameters on [agent_number] agents. *)
Definition replication (nx : NetworkX) (_ : nat) (EX : Experiment)
  : M Experiment :=
  let* S0 := Simulation_init nx (agent_number EX) 3 2 (1 # 5) 2
               (network_type EX) 5000 in
  let* Sf := run S0 in
  let results := return_results Sf in
  let history_market_shares := results.2 in
  let* market_shares := lift (last_market_shares history_market_shares) in
  let* (lms, slms) := lift (largest_and_second_largest_MS market_shares) in
  ret (mkExperiment (network_type EX) (agent_number EX)
         (number_of_replications EX)
         (list_largest_m_shares EX ++ [lms])
         (list_second_largest_m_shares EX ++ [slms])).

(** Experiment.run *)
Definition Experiment_run (nx : NetworkX) (EX : Experiment) : M Experiment :=
  for_each (replication nx) (py_range (number_of_replications EX)) EX.

(** Experiment.collect_results *)
Definition collect_results (EX : Experiment) : list Q * list Q :=
  (list_largest_m_shares EX, list_second_largest_m_shares EX).

(** ** Further notions *)

(** The number of agents that hold some technology. *)
Definition adopters (S : Simulation) : Z :=
  Z.of_nat (length (filter (λ a, is_Some (technology a)) (agents_list S))).

(** What the activation of one agent does to a simulation: nothing, or
    agent [i] takes up a technology [new] that has a positive weight in
    its neighborhood, and the counters follow. *)
Inductive activation (S : Simulation) : Simulation → Prop :=
| activation_none : activation S S
| activation_adopt (i : nat) (me : Agent) (new : nat)
    (freq : gmap nat Z) (nbs : list Agent) :
    agents_list S !! i = Some me →
    get_neighbors S i = Ok nbs →
    new ∈ technologies_list S →
    0 < py_pow (count_tech new nbs) (agent_exponent me) →
    update_counters (tech_frequency S) (technology me) (Some new) = Ok freq →
    activation S (with_tech_frequency (adopt S i new) freq).

(** The last sample of every technology's history is its current share. *)
Definition history_in_sync (S : Simulation) : Prop :=
  ∀ t, t ∈ technologies_list S →
       ∃ h, history_tech_frequency S !! t = Some (h ++ [share_of S t]).

(** Relations between an earlier and a later simulation of one run. *)

(** No agent gives up having a technology. *)
Definition keeps_adopted (S S' : Simulation) : Prop :=
  ∀ i, is_Some (agent_technology S i) → is_Some (agent_technology S' i).

(** The network, the parameters and the identity of the agents stay. *)
Definition fixed_setting (S S' : Simulation) : Prop :=
  G S' = G S ∧ n_agents S' = n_agents S ∧ t_max S' = t_max S ∧
  n_technologies S' = n_technologies S ∧
  n_initial_adopters S' = n_initial_adopters S ∧
  reconsideration_probability S' = reconsideration_probability S ∧
  choice_function_exponent S' = choice_function_exponent S ∧
  technologies_list S' = technologies_list S ∧
  map id_number (agents_list S') = map id_number (agents_list S) ∧
  map agent_exponent (agents_list S') = map agent_exponent (agents_list S).

(** The recorded sequences only grow at their end. *)
Definition history_extends (S S' : Simulation) : Prop :=
  (∃ ts, history_t S' = history_t S ++ ts) ∧
  ∀ t h, history_tech_frequency S !! t = Some h →
         ∃ h2, history_tech_frequency S' !! t = Some (h ++ h2).

(** The provider delivers, from every generator state, a network on
    [n] nodes whose adjacency lists name nodes of the network. *)
Definition delivers (nx : NetworkX) (network_type : string) (n : Z) : Prop :=
  ∀ rs, ∃ G0 rs1,
    generate_network nx network_type n rs = Ok (G0, rs1) ∧
    order G0 = Z.to_nat n ∧ graph_wf G0.

(** What holds of a pair of terminal shares (largest, second largest). *)
Definition top_two_shares (lms slms : Q) : Prop :=
  (0 <= slms)%Q ∧ (slms <= lms)%Q ∧ (0 < lms)%Q ∧ (lms + slms <= 1)%Q.

(** * Properties *)

(** ** The statistics helper *)

Lemma Qlt_bool_iff (x y : Q) : Qlt_bool x y = true ↔ (x < y)%Q.
Proof. unfold Qlt_bool, Qlt. apply Z.ltb_lt. Qed.

Lemma Qlt_bool_false (x y : Q) : Qlt_bool x y = false ↔ (y <= x)%Q.
Proof. unfold Qlt_bool, Qle. rewrite Z.ltb_ge. reflexivity. Qed.

Lemma list_split_last_two {A} (s : list A) :
  (2 ≤ length s)%nat → ∃ front b a, s = front ++ [b; a].
Proof.
  intros Hlen.
  destruct (decide (s = [])) as [-> | Hne]; [simpl in Hlen; lia |].
  apply last_is_Some in Hne. destruct Hne as [a Ha].
  apply last_Some in Ha. destruct Ha as [s1 ->].
  rewrite length_app in Hlen. simpl in Hlen.
  destruct (decide (s1 = [])) as [-> | Hne1]; [simpl in Hlen; lia |].
  apply last_is_Some in Hne1. destruct Hne1 as [b Hb].
  apply last_Some in Hb. destruct Hb as [front ->].
  exists front, b, a. by rewrite <- app_assoc.
Qed.

Lemma index_from_end_1 {A} (front : list A) a :
  index_from_end (front ++ [a]) 1 = Ok a.
Proof.
  unfold index_from_end. rewrite length_app. simpl.
  destruct (Nat.ltb_spec (length front + 1) 1) as [H | H]; [lia |].
  replace (length front + 1 - 1)%nat with (length front + 0)%nat by lia.
  by rewrite lookup_app_r, Nat.add_0_r, Nat.sub_diag by lia.
Qed.

Lemma index_from_end_2 {A} (front : list A) b a :
  index_from_end (front ++ [b; a]) 2 = Ok b.
Proof.
  unfold index_from_end. rewrite length_app. simpl.
  destruct (Nat.ltb_spec (length front + 2) 2) as [H | H]; [lia |].
  replace (length front + 2 - 2)%nat with (length front) by lia.
  by rewrite lookup_app_r, Nat.sub_diag by lia.
Qed.

Lemma index_from_end_short {A} (s : list A) k :
  (length s < k)%nat → index_from_end s k = Raise IndexError.
Proof.
  intros H. unfold index_from_end.
  by destruct (Nat.ltb_spec (length s) k); [| lia].
Qed.

Lemma py_max_fold (l : list Q) (m0 : Q) :
  let m := foldl (λ m y, if Qlt_bool m y then y else m) m0 l in
  (m = m0 ∨ m ∈ l) ∧ (m0 <= m)%Q ∧ ∀ x, x ∈ l → (x <= m)%Q.
Proof.
  revert m0. induction l as [| y l IH]; intros m0; simpl.
  - split; [by left |]. split; [apply Qle_refl |]. intros x Hx. by inv Hx.
  - destruct (Qlt_bool m0 y) eqn:Hc.
    + apply Qlt_bool_iff in Hc.
      destruct (IH y) as (Hin & Hge & Hub). split; [| split].
      * right. destruct Hin as [-> | Hin]; [left | by right].
      * eapply Qle_trans; [apply Qlt_le_weak, Hc | exact Hge].
      * intros x Hx. apply elem_of_cons in Hx as [-> | Hx]; auto.
    + apply Qlt_bool_false in Hc.
      destruct (IH m0) as (Hin & Hge & Hub). split; [| split].
      * destruct Hin as [-> | Hin]; [by left | right; by right].
      * exact Hge.
      * intros x Hx. apply elem_of_cons in Hx as [-> | Hx]; auto.
        eapply Qle_trans; eauto.
Qed.

Lemma py_min_fold (l : list Q) (m0 : Q) :
  let m := foldl (λ m y, if Qlt_bool y m then y else m) m0 l in
  (m = m0 ∨ m ∈ l) ∧ (m <= m0)%Q ∧ ∀ x, x ∈ l → (m <= x)%Q.
Proof.
  revert m0. induction l as [| y l IH]; intros m0; simpl.
  - split; [by left |]. split; [apply Qle_refl |]. intros x Hx. by inv Hx.
  - destruct (Qlt_bool y m0) eqn:Hc.
    + apply Qlt_bool_iff in Hc.
      destruct (IH y) as (Hin & Hge & Hub). split; [| split].
      * right. destruct Hin as [-> | Hin]; [left | by right].
      * eapply Qle_trans; [exact Hge | apply Qlt_le_weak, Hc].
      * intros x Hx. apply elem_of_cons in Hx as [-> | Hx]; auto.
    + apply Qlt_bool_false in Hc.
      destruct (IH m0) as (Hin & Hge & Hub). split; [| split].
      * destruct Hin as [-> | Hin]; [by left | right; by right].
      * exact Hge.
      * intros x Hx. apply elem_of_cons in Hx as [-> | Hx]; auto.
        eapply Qle_trans; eauto.
Qed.

Lemma py_max_spec (l : list Q) :
  l ≠ [] → ∃ m, py_max l = Some m ∧ m ∈ l ∧ ∀ x, x ∈ l → (x <= m)%Q.
Proof.
  destruct l as [| x0 l]; [done | intros _].
  destruct (py_max_fold l x0) as (Hin & Hge & Hub).
  eexists. split; [reflexivity |]. split.
  - destruct Hin as [-> | Hin]; [left | by right].
  - intros x Hx. apply elem_of_cons in Hx as [-> | Hx]; auto.
Qed.

Lemma py_min_spec (l : list Q) :
  l ≠ [] → ∃ m, py_min l = Some m ∧ m ∈ l ∧ ∀ x, x ∈ l → (m <= x)%Q.
Proof.
  destruct l as [| x0 l]; [done | intros _].
  destruct (py_min_fold l x0) as (Hin & Hge & Hub).
  eexists. split; [reflexivity |]. split.
  - destruct Hin as [-> | Hin]; [left | by right].
  - intros x Hx. apply elem_of_cons in Hx as [-> | Hx]; auto.
Qed.

Lemma np_sort_length (l : list Q) : length (np_sort l) = length l.
Proof. apply Permutation_length, merge_sort_Permutation. Qed.

(** In a sorted array that ends in [b; a], everything but the last entry
    is at most [b], and everything is at most [a]. *)
Lemma sorted_tail_bounds (front : list Q) (b a : Q) :
  StronglySorted Qle (front ++ [b; a]) →
  (b <= a)%Q ∧
  (∀ k x, (front ++ [b; a]) !! k = Some x → (k ≤ length front)%nat →
          (x <= b)%Q) ∧
  (∀ x, x ∈ front ++ [b; a] → (x <= a)%Q).
Proof.
  intros Hs. apply StronglySorted_app in Hs as (Hcross & _ & Hba).
  apply StronglySorted_cons in Hba as [Hba _].
  apply Forall_cons in Hba as [Hba _].
  assert (Hfront : ∀ x, x ∈ front → (x <= b)%Q).
  { intros x Hx. apply Hcross; [done | left]. }
  split; [exact Hba |]. split.
  - intros k x Hk Hle.
    destruct (decide (k < length front)%nat) as [Hlt | Hge].
    + rewrite lookup_app_l in Hk by done.
      apply Hfront. eapply list_elem_of_lookup_2, Hk.
    + replace k with (length front) in Hk by lia.
      rewrite lookup_app_r, Nat.sub_diag in Hk by lia.
      simpl in Hk. inv Hk. apply Qle_refl.
  - intros x Hx. apply elem_of_app in Hx as [Hx | Hx].
    + eapply Qle_trans; [by apply Hfront | done].
    + apply elem_of_cons in Hx as [-> | Hx]; [done |].
      apply list_elem_of_singleton in Hx as ->. apply Qle_refl.
Qed.

(** C4: on fewer than two shares the helper raises; on at least two it
    returns the last two entries of the sorted array: the first result
    equals [max], the second lies between [min] and the first, and two
    entries tied for the maximum make both results equal. *)
Theorem top_two_order_statistics (l : list Q) :
  ((length l < 2)%nat → largest_and_second_largest_MS l = Raise IndexError) ∧
  ((2 ≤ length l)%nat →
   ∃ lms slms front mx mn,
     largest_and_second_largest_MS l = Ok (lms, slms) ∧
     np_sort l = front ++ [slms; lms] ∧
     py_max l = Some mx ∧ py_min l = Some mn ∧
     (lms == mx)%Q ∧ (slms <= lms)%Q ∧ (mn <= slms)%Q ∧
     (∀ i j x y, i ≠ j → l !! i = Some x → l !! j = Some y →
                 (x == mx)%Q → (y == mx)%Q → (lms == slms)%Q)).
Proof.
  split.
  - intros Hlen. unfold largest_and_second_largest_MS.
    pose proof (np_sort_length l) as Hl.
    destruct (index_from_end (np_sort l) 1) as [a | e] eqn:H1; simpl.
    + rewrite index_from_end_short by lia. done.
    + unfold index_from_end in H1.
      destruct (length (np_sort l) <? 1)%nat; [congruence |].
      destruct (np_sort l !! _); congruence.
  - intros Hlen.
    pose proof (np_sort_length l) as Hl.
    pose proof (merge_sort_Permutation Qle l) as Hperm.
    pose proof (StronglySorted_merge_sort Qle l) as Hsorted.
    fold (np_sort l) in Hperm, Hsorted.
    destruct (list_split_last_two (np_sort l)) as (front & b & a & Hs);
      [lia |].
    rewrite Hs in Hsorted.
    destruct (sorted_tail_bounds _ _ _ Hsorted) as (Hba & Hb & Ha).
    assert (Hne : l ≠ []) by (intros ->; simpl in Hlen; lia).
    destruct (py_max_spec l Hne) as (mx & Hmx & Hmx_in & Hmx_ub).
    destruct (py_min_spec l Hne) as (mn & Hmn & Hmn_in & Hmn_lb).
    assert (Hin_a : a ∈ l).
    { rewrite <- Hperm, Hs. apply elem_of_app. right. right. left. }
    assert (Hin_b : b ∈ l).
    { rewrite <- Hperm, Hs. apply elem_of_app. right. left. }
    assert (Hamx : (a == mx)%Q).
    { apply Qle_antisym; [by apply Hmx_ub |].
      apply Ha. by rewrite <- Hs, Hperm. }
    exists a, b, front, mx, mn. repeat split; try done.
    + unfold largest_and_second_largest_MS. rewrite Hs.
      replace (front ++ [b; a]) with ((front ++ [b]) ++ [a])
        by (by rewrite <- app_assoc).
      rewrite index_from_end_1. simpl.
      rewrite <- app_assoc. simpl. by rewrite index_from_end_2.
    + by apply Hmn_lb.
    + intros i j x y Hij Hi Hj Hx Hy.
      symmetry in Hperm.
      apply Permutation_inj in Hperm as (_ & f & Hf & Hlook).
      rewrite Hlook, Hs in Hi, Hj.
      assert (Hfij : f i ≠ f j) by (intros E; by apply Hf in E).
      pose proof (lookup_lt_Some _ _ _ Hi) as Hli.
      pose proof (lookup_lt_Some _ _ _ Hj) as Hlj.
      rewrite length_app in Hli, Hlj. simpl in Hli, Hlj.
      apply Qle_antisym; [| done].
      destruct (decide (f i ≤ length front)%nat) as [Hc | Hc].
      * rewrite Hamx, <- Hx. by eapply Hb.
      * rewrite Hamx, <- Hy. eapply Hb; [done | lia].
Qed.

Lemma top_two_witness :
  largest_and_second_largest_MS [1 # 10; 3 # 10; 3 # 10]%Q
  = Ok ((3 # 10)%Q, (3 # 10)%Q).
Proof.
  destruct (top_two_order_statistics [1 # 10; 3 # 10; 3 # 10]%Q)
    as [_ Htwo].
  destruct Htwo as (lms & slms & front & mx & mn & Hcall & _);
    [simpl; lia |].
  reflexivity.
Defined.

(** C10: the call leaves the caller's list as it was; its results are
    those of the helper on that list. *)
Theorem input_list_unchanged (h : Heap) (market_share : nat) (l : list Q) :
  h !! market_share = Some l →
  (largest_and_second_largest_MS_call h market_share).2 !! market_share
    = Some l ∧
  (largest_and_second_largest_MS_call h market_share).1
    = largest_and_second_largest_MS l.
Proof.
  intros Hl. unfold largest_and_second_largest_MS_call, np_sort_alloc.
  rewrite Hl. simpl.
  assert (Hfresh : fresh (dom h) ≠ market_share).
  { intros E. apply (is_fresh (dom h)). rewrite E.
    apply elem_of_dom. by exists l. }
  split.
  - by rewrite lookup_insert_ne.
  - unfold dict_get. by rewrite lookup_insert_eq.
Qed.

Lemma input_list_unchanged_witness :
  (largest_and_second_largest_MS_call
     {[ 7%nat := [1 # 3; 1 # 2; 1 # 6]%Q ]} 7).2 !! 7%nat
  = Some [1 # 3; 1 # 2; 1 # 6]%Q.
Proof.
  apply (input_list_unchanged {[ 7%nat := [1 # 3; 1 # 2; 1 # 6]%Q ]} 7).
  reflexivity.
Defined.

(** ** The monad *)

Lemma bind_Ok {A B} (m : M A) (f : A → M B) rs a rs' :
  m rs = Ok (a, rs') → bind m f rs = f a rs'.
Proof. intros H. unfold bind. by rewrite H. Qed.

Lemma bind_Raise {A B} (m : M A) (f : A → M B) rs e :
  m rs = Raise e → bind m f rs = Raise e.
Proof. intros H. unfold bind. by rewrite H. Qed.

Lemma lift_Ok {A} (r : result A) a rs : r = Ok a → lift r rs = Ok (a, rs).
Proof. by intros ->. Qed.

Lemma for_each_app {A S} (body : A → S → M S) l1 l2 s rs :
  for_each body (l1 ++ l2) s rs
  = bind (for_each body l1 s) (for_each body l2) rs.
Proof.
  revert s rs. induction l1 as [| a l1 IH]; intros s rs; simpl.
  - reflexivity.
  - unfold bind in *. destruct (body a s rs) as [[s' rs'] | e]; [| done].
    apply IH.
Qed.

(** ** The generator's primitives *)

Lemma np_random_random_spec rs :
  ∃ u, np_random_random rs = Ok (u, advance rs) ∧ (0 <= u)%Q ∧ (u < 1)%Q.
Proof.
  eexists. split; [reflexivity |].
  pose proof (Z.mod_pos_bound (bits rs (cursor rs)) (Z.pos two53)
                ltac:(done)) as [Hlo Hhi].
  unfold Qle, Qlt. simpl. lia.
Qed.

Lemma np_random_randint_spec n rs :
  (0 < n)%nat →
  ∃ i, np_random_randint n rs = Ok (i, advance rs) ∧ (i < n)%nat.
Proof.
  intros Hn. eexists. split; [reflexivity |].
  pose proof (Z.mod_pos_bound (bits rs (cursor rs)) (Z.of_nat n)
                ltac:(lia)). lia.
Qed.

Lemma np_random_choice_spec {A} (a : list A) rs :
  a ≠ [] →
  ∃ i x, a !! i = Some x ∧ np_random_choice a rs = Ok (x, advance rs).
Proof.
  intros Hne.
  destruct (np_random_randint_spec (length a) rs) as (i & Hi & Hlt).
  { destruct a; [done | simpl; lia]. }
  destruct (lookup_lt_is_Some_2 a i Hlt) as [x Hx].
  exists i, x. split; [done |].
  unfold np_random_choice. destruct a as [| a0 a']; [done |].
  rewrite (bind_Ok _ _ _ _ _ Hi). by rewrite Hx.
Qed.

Lemma draw_without_replacement_spec {A} (k : nat) (pool : list A) rs :
  (k ≤ length pool)%nat →
  ∃ l rs', draw_without_replacement k pool rs = Ok (l, rs') ∧
           length l = k ∧ l ⊆+ pool.
Proof.
  revert pool rs. induction k as [| k IH]; intros pool rs Hk.
  - exists [], rs. split; [done |]. split; [done |]. apply submseteq_nil_l.
  - destruct (np_random_randint_spec (length pool) rs) as (i & Hi & Hlt);
      [lia |].
    destruct (lookup_lt_is_Some_2 pool i Hlt) as [x Hx].
    destruct (IH (delete i pool) (advance rs)) as (l & rs' & Hl & Hlen & Hsub).
    { rewrite length_delete by eauto. lia. }
    exists (x :: l), rs'. split; [| split].
    + simpl. rewrite (bind_Ok _ _ _ _ _ Hi), Hx.
      by rewrite (bind_Ok _ _ _ _ _ Hl).
    + simpl. by rewrite Hlen.
    + rewrite (delete_Permutation pool i x Hx). by apply submseteq_skip.
Qed.

Lemma np_random_choice_noreplace_spec {A} (a : list A) (size : Z) rs :
  0 ≤ size ≤ Z.of_nat (length a) →
  ∃ l rs', np_random_choice_noreplace a size rs = Ok (l, rs') ∧
           length l = Z.to_nat size ∧ l ⊆+ a.
Proof.
  intros [Hlo Hhi]. unfold np_random_choice_noreplace.
  destruct (Z.ltb_spec size 0); [lia |].
  destruct (Z.ltb_spec (Z.of_nat (length a)) size); [lia |].
  apply draw_without_replacement_spec. lia.
Qed.

Lemma np_random_choice_noreplace_too_many {A} (a : list A) (size : Z) rs :
  size < 0 ∨ Z.of_nat (length a) < size →
  np_random_choice_noreplace a size rs = Raise ValueError.
Proof.
  intros H. unfold np_random_choice_noreplace.
  destruct (Z.ltb_spec size 0); [done |].
  destruct (Z.ltb_spec (Z.of_nat (length a)) size); [done | lia].
Qed.

Lemma Qle_bool_false (x y : Q) : Qle_bool x y = false ↔ (y < x)%Q.
Proof.
  rewrite <- not_true_iff_false, Qle_bool_iff. split.
  - apply Qnot_le_lt.
  - apply Qlt_not_le.
Qed.

Lemma searchsorted_right_spec (p : list Q) (acc u : Q) :
  Forall (Qle 0) p → (acc <= u)%Q → (u < acc + Qsum p)%Q →
  ∃ q, p !! searchsorted_right acc p u = Some q ∧ (0 < q)%Q.
Proof.
  revert acc. induction p as [| x p IH]; intros acc Hp Hlo Hhi; simpl in *.
  - lra.
  - apply Forall_cons in Hp as [Hx Hp].
    destruct (Qle_bool (acc + x) u) eqn:Hc.
    + apply Qle_bool_iff in Hc. simpl. apply IH; [done | done | lra].
    + apply Qle_bool_false in Hc. exists x. split; [done | lra].
Qed.

Lemma existsb_negative_false (p : list Q) :
  Forall (Qle 0) p → existsb (λ x, Qlt_bool x 0) p = false.
Proof.
  induction 1 as [| x p Hx _ IH]; simpl; [done |].
  rewrite IH, orb_false_r. by apply Qlt_bool_false.
Qed.

Lemma np_random_choice_p_spec {A} (a : list A) (p : list Q) rs :
  a ≠ [] → length a = length p → Forall (Qle 0) p → (Qsum p == 1)%Q →
  ∃ i x q, a !! i = Some x ∧ p !! i = Some q ∧ (0 < q)%Q ∧
           np_random_choice_p a p rs = Ok (x, advance rs).
Proof.
  intros Hne Hlen Hp Hsum.
  destruct (np_random_random_spec rs) as (u & Hu & Hu0 & Hu1).
  destruct (searchsorted_right_spec p 0 u Hp) as (q & Hq & Hqpos);
    [lra | lra |].
  pose proof (lookup_lt_Some _ _ _ Hq) as Hi. rewrite <- Hlen in Hi.
  destruct (lookup_lt_is_Some_2 a _ Hi) as [x Hx].
  exists (searchsorted_right 0 p u), x, q. repeat split; try done.
  unfold np_random_choice_p. destruct a as [| a0 a']; [done |].
  apply Qeq_bool_iff in Hsum.
  rewrite Hlen, Nat.eqb_refl, existsb_negative_false, Hsum by done.
  cbn [negb].
  rewrite (bind_Ok _ _ _ _ _ Hu). by rewrite Hx.
Qed.

(** ** Dictionaries and counts *)

Lemma dict_of_items_lookup {V} (f : nat → V) (tl : list nat) (t : nat) :
  dict_of_items (map (λ tech, (tech, f tech)) tl) !! t
  = if decide (t ∈ tl) then Some (f t) else None.
Proof.
  unfold dict_of_items.
  assert (Hgen : ∀ d : gmap nat V,
    foldl (λ d kv, <[kv.1 := kv.2]> d) d (map (λ tech, (tech, f tech)) tl) !! t
    = if decide (t ∈ tl) then Some (f t) else d !! t).
  { induction tl as [| x tl IH]; intros d.
    - simpl foldl. case_decide as Hin; [by inv Hin | done].
    - cbn [map foldl]. rewrite IH. cbn [fst snd].
      destruct (decide (t ∈ tl)) as [Hin | Hnin].
      + by rewrite decide_True by (by right).
      + destruct (decide (t = x)) as [-> | Hne].
        * rewrite decide_True by left. by rewrite lookup_insert_eq.
        * rewrite decide_False by (rewrite elem_of_cons; tauto).
          by rewrite lookup_insert_ne. }
  rewrite Hgen. by destruct (decide (t ∈ tl)).
Qed.

Lemma dict_of_items_const_lookup (tl : list nat) (t : nat) :
  dict_of_items (map (λ tech, (tech, 0)) tl) !! t
  = if decide (t ∈ tl) then Some 0 else None.
Proof. apply (dict_of_items_lookup (λ _, 0)). Qed.

Lemma count_tech_nil t : count_tech t [] = 0.
Proof. reflexivity. Qed.

Lemma count_tech_cons t a l :
  count_tech t (a :: l)
  = (if decide (technology a = Some t) then 1 else 0) + count_tech t l.
Proof.
  unfold count_tech. rewrite filter_cons.
  destruct (decide (technology a = Some t)); simpl length; lia.
Qed.

Lemma count_tech_nonneg t l : 0 ≤ count_tech t l.
Proof. unfold count_tech. lia. Qed.

Lemma count_tech_le_length t l : count_tech t l ≤ Z.of_nat (length l).
Proof.
  unfold count_tech. pose proof (length_filter (λ a, technology a = Some t) l).
  lia.
Qed.

Lemma count_tech_alter t f i a l :
  l !! i = Some a →
  count_tech t (alter f i l)
  = count_tech t l
    - (if decide (technology a = Some t) then 1 else 0)
    + (if decide (technology (f a) = Some t) then 1 else 0).
Proof.
  revert i. induction l as [| b l IH]; intros i Hi; [done |].
  destruct i as [| i]; simpl in Hi.
  - inv Hi. change (alter f 0%nat (a :: l)) with (f a :: l).
    rewrite !count_tech_cons. lia.
  - change (alter f (S i) (b :: l)) with (b :: alter f i l).
    rewrite !count_tech_cons, (IH i Hi). lia.
Qed.

(** The counts of a list of agents none of whom has adopted. *)
Lemma count_tech_unadopted t l :
  Forall (λ a, technology a = None) l → count_tech t l = 0.
Proof.
  induction 1 as [| a l Ha _ IH]; [done |].
  rewrite count_tech_cons, IH, decide_False; [done | congruence].
Qed.

(** ** The neighborhood of an agent *)

Lemma comprehension_Ok {A B} (f : A → result B) (g : A → B) (l : list A) :
  Forall (λ a, f a = Ok (g a)) l → comprehension f l = Ok (map g l).
Proof.
  induction 1 as [| a l Ha _ IH]; simpl; [done |]. by rewrite Ha, IH.
Qed.

Lemma get_neighbors_spec (S : Simulation) (i : nat) :
  sim_inv S → (i < length (agents_list S))%nat →
  ∃ nbs, get_neighbors S i = Ok nbs ∧ Forall (λ a, a ∈ agents_list S) nbs.
Proof.
  intros HS Hi. unfold get_neighbors, nx_neighbors.
  rewrite <- (inv_order _ HS) in Hi.
  destruct (lookup_lt_is_Some_2 (G S) i Hi) as [nbrs Hnbrs].
  rewrite Hnbrs.
  pose proof (inv_wf _ HS) as Hwf. unfold graph_wf in Hwf.
  rewrite Forall_lookup in Hwf. specialize (Hwf i nbrs Hnbrs).
  rewrite (inv_order _ HS) in Hwf. clear Hnbrs.
  induction Hwf as [| j nbrs Hj _ IH]; simpl.
  - by exists [].
  - destruct IH as (nbs & -> & Hin).
    destruct (lookup_lt_is_Some_2 (agents_list S) j Hj) as [a Ha].
    unfold node_agent at 1. rewrite Ha. exists (a :: nbs). split; [done |].
    constructor; [| done]. eapply list_elem_of_lookup_2, Ha.
Qed.

Lemma count_loop_spec (nbs : list Agent) (tl : list nat) :
  ∀ (d : gmap nat Z) (cnt : nat → Z),
  (∀ t, t ∈ tl → d !! t = Some (cnt t)) →
  Forall (λ a, ∀ t, technology a = Some t → t ∈ tl) nbs →
  ∃ d', for_each_r
          (λ A d, match get_technology A with
                  | Some tech => dict_add d tech 1
                  | None => Ok d
                  end) nbs d = Ok d' ∧
        ∀ t, t ∈ tl → d' !! t = Some (cnt t + count_tech t nbs).
Proof.
  induction nbs as [| a nbs IH]; intros d cnt Hd Hnbs; simpl.
  - exists d. split; [done |]. intros t Ht.
    rewrite count_tech_nil, Z.add_0_r. auto.
  - apply Forall_cons in Hnbs as [Ha Hnbs].
    unfold get_technology. destruct (technology a) as [ta |] eqn:Hta.
    + unfold dict_add. rewrite (Hd ta (Ha ta eq_refl)).
      destruct (IH (<[ta := cnt ta + 1]> d)
                  (λ t, if decide (t = ta) then cnt t + 1 else cnt t))
        as (d' & Hd' & Hlook); [| done |].
      { intros t Ht. destruct (decide (t = ta)) as [-> | Hne].
        - by rewrite lookup_insert_eq.
        - rewrite lookup_insert_ne by done. auto. }
      exists d'. split; [done |]. intros t Ht.
      rewrite (Hlook t Ht), count_tech_cons, Hta.
      destruct (decide (t = ta)) as [-> | Hne].
      * rewrite decide_True by done. f_equal. lia.
      * rewrite decide_False by congruence. f_equal.
    + destruct (IH d cnt Hd Hnbs) as (d' & Hd' & Hlook).
      exists d'. split; [done |]. intros t Ht.
      rewrite (Hlook t Ht), count_tech_cons, decide_False by congruence.
      f_equal.
Qed.

Lemma count_neighbor_technologies_spec (tl : list nat) (nbs : list Agent) :
  Forall (λ a, ∀ t, technology a = Some t → t ∈ tl) nbs →
  ∃ freq, count_neighbor_technologies tl nbs = Ok freq ∧
          ∀ t, t ∈ tl → freq !! t = Some (count_tech t nbs).
Proof.
  intros Hnbs. unfold count_neighbor_technologies.
  destruct (count_loop_spec nbs tl
              (dict_of_items (map (λ tech, (tech, 0)) tl)) (λ _, 0))
    as (d' & Hd' & Hlook); [| done |].
  { intros t Ht. rewrite dict_of_items_const_lookup.
    by rewrite decide_True. }
  exists d'. split; [done |]. intros t Ht. by rewrite (Hlook t Ht).
Qed.

Lemma choice_weights_spec (tl : list nat) (freq : gmap nat Z)
  (cnt : nat → Z) (exponent : nat) :
  (∀ t, t ∈ tl → freq !! t = Some (cnt t)) →
  choice_weights tl freq exponent
  = Ok (map (λ t, py_pow (cnt t) exponent) tl).
Proof.
  intros Hf. unfold choice_weights. apply comprehension_Ok.
  apply Forall_forall. intros t Ht. unfold dict_get.
  by rewrite (Hf t Ht).
Qed.

(** The weights that [choose] computes, in closed form. *)
Lemma neighborhood_weights_spec (S : Simulation) (i : nat) (me : Agent) :
  sim_inv S → agents_list S !! i = Some me →
  ∃ nbs, get_neighbors S i = Ok nbs ∧
         Forall (λ a, a ∈ agents_list S) nbs ∧
         neighborhood_weights S me
         = Ok (map (λ t, py_pow (count_tech t nbs) (agent_exponent me))
                 (technologies_list S)).
Proof.
  intros HS Hme.
  pose proof (inv_ids _ HS _ _ Hme) as Hid.
  destruct (get_neighbors_spec S i HS) as (nbs & Hnbs & Hin).
  { eapply lookup_lt_Some, Hme. }
  exists nbs. split; [done |]. split; [done |].
  unfold neighborhood_weights. rewrite Hid, Hnbs. simpl.
  destruct (count_neighbor_technologies_spec (technologies_list S) nbs)
    as (freq & Hfreq & Hlook).
  { eapply Forall_impl; [exact Hin |]. intros a Ha t Ht.
    apply list_elem_of_lookup in Ha as [j Hj].
    eapply inv_tech; eauto. }
  unfold get_technologies_list. rewrite Hfreq. simpl.
  by apply choice_weights_spec.
Qed.

(** ** Weights and their normalisation *)

Lemma py_pow_nonneg c exponent : 0 ≤ c → 0 ≤ py_pow c exponent.
Proof. intros Hc. unfold py_pow. apply Z.pow_nonneg, Hc. Qed.

Lemma py_pow_zero exponent : (0 < exponent)%nat → py_pow 0 exponent = 0.
Proof. intros H. unfold py_pow. apply Z.pow_0_l. lia. Qed.

Lemma py_pow_exponent_zero c : py_pow c 0 = 1.
Proof. reflexivity. Qed.

Lemma Zsum_nonneg (ws : list Z) : Forall (Z.le 0) ws → 0 ≤ Zsum ws.
Proof. induction 1; simpl; lia. Qed.

Lemma Zsum_zero (ws : list Z) : Forall (λ w, w = 0) ws → Zsum ws = 0.
Proof. induction 1; simpl; lia. Qed.

Lemma Qsum_scaled (ws : list Z) (c : Q) :
  ¬ (c == 0)%Q →
  (Qsum (map (λ x, inject_Z x / c) ws) == inject_Z (Zsum ws) / c)%Q.
Proof.
  intros Hc. induction ws as [| w ws IH]; simpl.
  - unfold Qsum; simpl. field. exact Hc.
  - change (Qsum (inject_Z w / c :: map (λ x, inject_Z x / c) ws))%Q
      with (inject_Z w / c + Qsum (map (λ x, inject_Z x / c) ws))%Q.
    rewrite IH, inject_Z_plus. field. exact Hc.
Qed.

Lemma inject_Z_pos (z : Z) : 0 < z → (0 < inject_Z z)%Q.
Proof. intros H. change 0%Q with (inject_Z 0). by rewrite <- Zlt_Qlt. Qed.

Lemma inject_Z_nonneg (z : Z) : 0 ≤ z → (0 <= inject_Z z)%Q.
Proof. intros H. change 0%Q with (inject_Z 0). by rewrite <- Zle_Qle. Qed.

Lemma ratio_range (c n : Z) :
  0 ≤ c ≤ n → 0 < n →
  (0 <= inject_Z c / inject_Z n)%Q ∧ (inject_Z c / inject_Z n <= 1)%Q.
Proof.
  intros [H0 H1] Hn. pose proof (inject_Z_pos _ Hn) as Hnq.
  apply inject_Z_nonneg in H0. rewrite Zle_Qle in H1.
  split.
  - apply Qle_shift_div_l; [done | lra].
  - apply Qle_shift_div_r; [done | lra].
Qed.

Lemma Qsum_normalise (ws : list Z) :
  0 < Zsum ws → (Qsum (normalise ws) == 1)%Q.
Proof.
  intros Hs. unfold normalise.
  pose proof (inject_Z_pos _ Hs) as Hpos.
  rewrite Qsum_scaled by lra. field. lra.
Qed.

Lemma normalise_nonneg (ws : list Z) :
  Forall (Z.le 0) ws → 0 < Zsum ws → Forall (Qle 0) (normalise ws).
Proof.
  intros Hws Hs. unfold normalise. apply Forall_fmap.
  eapply Forall_impl; [exact Hws |]. intros w Hw. simpl.
  apply Qle_shift_div_l; [by apply inject_Z_pos |].
  pose proof (inject_Z_nonneg _ Hw). lra.
Qed.

Lemma normalise_lookup_pos (ws : list Z) (k : nat) (q : Q) :
  0 < Zsum ws → normalise ws !! k = Some q → (0 < q)%Q →
  ∃ w, ws !! k = Some w ∧ 0 < w.
Proof.
  intros Hs Hq Hpos. unfold normalise in Hq.
  rewrite list_lookup_fmap in Hq.
  destruct (ws !! k) as [w |]; [| done]. simpl in Hq. inv Hq.
  exists w. split; [done |].
  destruct (Z.lt_ge_cases 0 w) as [Hw | Hw]; [done | exfalso].
  pose proof (inject_Z_pos _ Hs) as Hspos.
  assert (inject_Z w <= 0)%Q.
  { change 0%Q with (inject_Z 0). by rewrite <- Zle_Qle. }
  assert (inject_Z w / inject_Z (Zsum ws) <= 0)%Q; [| lra].
  apply Qle_shift_div_r; [done | lra].
Qed.

(** ** choose *)

Lemma choose_spec (S : Simulation) (i : nat) (me : Agent) rs :
  sim_inv S → agents_list S !! i = Some me →
  ∃ nbs,
    get_neighbors S i = Ok nbs ∧
    Forall (λ a, a ∈ agents_list S) nbs ∧
    let ws := map (λ t, py_pow (count_tech t nbs) (agent_exponent me))
                (technologies_list S) in
    (Zsum ws ≤ 0 ∧ choose S i rs = Ok ((S, (None, None)), rs)) ∨
    (0 < Zsum ws ∧
     ∃ k new w, technologies_list S !! k = Some new ∧
                ws !! k = Some w ∧ 0 < w ∧
                choose S i rs
                = Ok ((adopt S i new, (technology me, Some new)),
                      advance rs)).
Proof.
  intros HS Hme.
  destruct (neighborhood_weights_spec S i me HS Hme)
    as (nbs & Hnbs & Hin & Hws).
  exists nbs. split; [done |]. split; [done |]. intros ws.
  assert (Hnode : node_agent S i = Ok me).
  { unfold node_agent. by rewrite Hme. }
  unfold choose.
  rewrite (bind_Ok _ _ _ _ _ (lift_Ok _ _ rs Hnode)).
  rewrite (bind_Ok _ _ _ _ _ (lift_Ok _ _ rs Hws)). fold ws.
  destruct (Z.ltb_spec 0 (Zsum ws)) as [Hpos | Hle]; [right | left; done].
  split; [done |].
  assert (Hnn : Forall (Z.le 0) ws).
  { apply Forall_fmap, Forall_forall. intros t _. simpl.
    apply py_pow_nonneg, count_tech_nonneg. }
  destruct (np_random_choice_p_spec (get_technologies_list S)
              (normalise ws) rs)
    as (k & new & q & Hk & Hq & Hqpos & Hdraw).
  - unfold get_technologies_list. intros Hnil.
    subst ws. rewrite Hnil in Hpos. simpl in Hpos. lia.
  - unfold normalise, get_technologies_list, ws.
    by rewrite !length_map.
  - by apply normalise_nonneg.
  - by apply Qsum_normalise.
  - destruct (normalise_lookup_pos ws k q Hpos Hq Hqpos) as (w & Hw & Hwpos).
    exists k, new, w. repeat split; try done.
    by rewrite (bind_Ok _ _ _ _ _ Hdraw).
Qed.

(** ** One step of the time loop *)

Lemma share_of_range (S : Simulation) (t : nat) :
  sim_inv S → (0 <= share_of S t)%Q ∧ (share_of S t <= 1)%Q.
Proof.
  intros HS. unfold share_of. apply ratio_range; [| apply (inv_n_pos _ HS)].
  split; [apply count_tech_nonneg |].
  rewrite <- (inv_agents_len _ HS). apply count_tech_le_length.
Qed.

Lemma share_spec (S : Simulation) (t : nat) :
  sim_inv S → t ∈ technologies_list S →
  share (tech_frequency S) (n_agents S) t = Ok (share_of S t).
Proof.
  intros HS Ht. unfold share, dict_get. rewrite (inv_freq _ HS t Ht).
  simpl. unfold true_div.
  pose proof (inv_n_pos _ HS). by destruct (Z.eqb_spec (n_agents S) 0); [lia |].
Qed.

Lemma record_loop_spec (S : Simulation) (l : list nat) :
  sim_inv S → NoDup l → (∀ t, t ∈ l → t ∈ technologies_list S) →
  ∀ h0 : gmap nat (list Q),
  (∀ t, t ∈ l → is_Some (h0 !! t)) →
  ∃ h', for_each_r
          (λ i h, let+ q := share (tech_frequency S) (n_agents S) i in
                  let+ hi := dict_get h i in
                  Ok (<[i := hi ++ [q]]> h)) l h0 = Ok h' ∧
        (∀ t, t ∈ l → ∃ h, h0 !! t = Some h ∧
                           h' !! t = Some (h ++ [share_of S t])) ∧
        (∀ t, t ∉ l → h' !! t = h0 !! t).
Proof.
  intros HS Hnd Hsub. induction l as [| x l IH]; intros h0 Hkeys.
  - exists h0. split; [done |]. split; [| done].
    intros t Ht. by inv Ht.
  - apply NoDup_cons in Hnd as [Hx Hnd].
    destruct (Hkeys x ltac:(left)) as [hx Hhx].
    cbn [for_each_r]. rewrite (share_spec S x HS) by (apply Hsub; left).
    cbn [rbind]. unfold dict_get at 1. rewrite Hhx. cbn [rbind].
    destruct (IH Hnd (λ t Ht, Hsub t ltac:(by right))
                (<[x := hx ++ [share_of S x]]> h0))
      as (h' & Hh' & Hin & Hout).
    { intros t Ht. rewrite lookup_insert_ne by (intros ->; done).
      apply Hkeys. by right. }
    exists h'. split; [done |]. split.
    + intros t Ht. apply elem_of_cons in Ht as [-> | Ht].
      * exists hx. split; [done |].
        by rewrite (Hout x Hx), lookup_insert_eq.
      * destruct (Hin t Ht) as (h & Hh & Hh2).
        rewrite lookup_insert_ne in Hh by (intros ->; done).
        by exists h.
    + intros t Ht. rewrite not_elem_of_cons in Ht. destruct Ht as [Hne Ht].
      by rewrite (Hout t Ht), lookup_insert_ne.
Qed.

Lemma record_shares_spec (S : Simulation) :
  sim_inv S →
  ∃ h', record_shares S = Ok h' ∧
        (∀ t, t ∈ technologies_list S →
              ∃ h, history_tech_frequency S !! t = Some h ∧
                   h' !! t = Some (h ++ [share_of S t])) ∧
        (∀ t, t ∉ technologies_list S →
              h' !! t = history_tech_frequency S !! t).
Proof.
  intros HS. unfold record_shares. rewrite <- (inv_tl _ HS).
  apply record_loop_spec; try done.
  - rewrite (inv_tl _ HS). apply NoDup_seq.
  - apply (inv_hist_keys _ HS).
Qed.

(** Recording keeps the invariant. *)
Lemma record_inv (S : Simulation) (h' : gmap nat (list Q)) t :
  sim_inv S → record_shares S = Ok h' →
  sim_inv (with_history S h' (history_t S ++ [t])).
Proof.
  intros HS Hrec.
  destruct (record_shares_spec S HS) as (h'' & Hrec' & Hin & Hout).
  rewrite Hrec in Hrec'. inv Hrec'.
  destruct HS as [H1 H2 H3 H4 H5 He H6 H7 H8 H9 H10 H11].
  constructor; simpl; try done.
  - intros tech Htech. destruct (Hin tech Htech) as (h & _ & ->). eauto.
  - intros tech h Hh.
    destruct (decide (tech ∈ technologies_list S)) as [Htech | Htech].
    + destruct (Hin tech Htech) as (h0 & Hh0 & Hh1).
      rewrite Hh in Hh1. inv Hh1. apply Forall_app. split; [eauto |].
      apply Forall_singleton.
      apply share_of_range. by constructor.
    + rewrite (Hout tech Htech) in Hh. eauto.
  - intros tech Hsome.
    destruct (decide (tech ∈ technologies_list S)) as [Htech | Htech];
      [done |].
    rewrite (Hout tech Htech) in Hsome. eauto.
Qed.

(** Counters after an adoption. *)
Lemma adopt_inv (S : Simulation) (i : nat) (me : Agent) (new : nat) :
  sim_inv S → agents_list S !! i = Some me → new ∈ technologies_list S →
  ∃ freq, update_counters (tech_frequency S) (technology me) (Some new)
          = Ok freq ∧
          sim_inv (with_tech_frequency (adopt S i new) freq).
Proof.
  intros HS Hme Hnew.
  pose proof (inv_freq _ HS) as Hfreq.
  assert (Hcount : ∀ t,
    count_tech t (alter (λ A, set_technology A (Some new)) i (agents_list S))
    = count_tech t (agents_list S)
      - (if decide (technology me = Some t) then 1 else 0)
      + (if decide (new = t) then 1 else 0)).
  { intros t. rewrite (count_tech_alter t _ i me) by done.
    cbn [set_technology technology].
    destruct (decide (new = t)) as [-> | Hne].
    - by rewrite (decide_True (P := Some t = Some t)).
    - by rewrite (decide_False (P := Some new = Some t)) by congruence. }
  assert (Hupd : ∃ freq,
    update_counters (tech_frequency S) (technology me) (Some new) = Ok freq ∧
    ∀ t, t ∈ technologies_list S →
      freq !! t = Some (count_tech t (agents_list S)
        - (if decide (technology me = Some t) then 1 else 0)
        + (if decide (new = t) then 1 else 0))).
  { unfold update_counters. destruct (technology me) as [old |] eqn:Hold.
    - pose proof (inv_tech _ HS _ _ _ Hme Hold) as Hold_in.
      unfold dict_add at 1. rewrite (Hfreq old Hold_in). cbn [rbind].
      unfold dict_add.
      destruct (decide (new = old)) as [-> | Hne].
      + rewrite lookup_insert_eq. eexists. split; [done |].
        intros t Ht. destruct (decide (old = t)) as [-> | Hne].
        * rewrite lookup_insert_eq, decide_True by done. f_equal; lia.
        * rewrite !lookup_insert_ne, decide_False by congruence.
          rewrite (Hfreq t Ht). f_equal; lia.
      + rewrite lookup_insert_ne, (Hfreq new Hnew) by done.
        eexists. split; [done |]. intros t Ht.
        destruct (decide (new = t)) as [-> | Hne2].
        * rewrite lookup_insert_eq, decide_False by congruence. f_equal; lia.
        * rewrite lookup_insert_ne by done.
          destruct (decide (old = t)) as [-> | Hne3].
          -- rewrite lookup_insert_eq, decide_True by done. f_equal; lia.
          -- rewrite lookup_insert_ne, decide_False by congruence.
             rewrite (Hfreq t Ht). f_equal; lia.
    - cbn [rbind]. unfold dict_add. rewrite (Hfreq new Hnew).
      eexists. split; [done |]. intros t Ht.
      rewrite decide_False by done.
      destruct (decide (new = t)) as [-> | Hne].
      + rewrite lookup_insert_eq. f_equal; lia.
      + rewrite lookup_insert_ne, (Hfreq t Ht) by done. f_equal; lia. }
  destruct Hupd as (freq & Hupd & Hlook).
  exists freq. split; [done |].
  destruct HS as [H1 H2 H3 H4 H5 He H6 H7 H8 H9 H10 H11].
  constructor; simpl; try done.
  - by rewrite length_alter.
  - by rewrite length_alter.
  - intros j A HA. destruct (decide (i = j)) as [-> | Hne].
    + rewrite list_lookup_alter_eq, Hme in HA. simpl in HA. inv HA. simpl.
      eauto.
    + rewrite list_lookup_alter_ne in HA by done. eauto.
  - intros j A HA. destruct (decide (i = j)) as [-> | Hne].
    + rewrite list_lookup_alter_eq, Hme in HA. simpl in HA. inv HA. simpl.
      eauto.
    + rewrite list_lookup_alter_ne in HA by done. eauto.
  - intros j A t HA Ht. destruct (decide (i = j)) as [-> | Hne].
    + rewrite list_lookup_alter_eq, Hme in HA. simpl in HA. inv HA.
      simpl in Ht. by inv Ht.
    + rewrite list_lookup_alter_ne in HA by done. eauto.
  - intros t Ht. by rewrite (Hlook t Ht), Hcount.
Qed.

Lemma bind_split {A B C} (m1 : M A) (m2 : A → M B) (k : B → M C) rs b rs' :
  (let* a := m1 in let* x := m2 a in ret x) rs = Ok (b, rs') →
  (let* a := m1 in let* x := m2 a in k x) rs = k b rs'.
Proof.
  unfold bind, ret. destruct (m1 rs) as [[a r] |]; [| done].
  destruct (m2 a r) as [[x r'] |]; [| done]. by intros [= -> ->].
Qed.

Lemma with_tech_frequency_same (S : Simulation) :
  with_tech_frequency S (tech_frequency S) = S.
Proof. by destruct S. Qed.

(** An activated agent: [choose], then the counter updates. *)
Lemma activation_spec (S : Simulation) (i : nat) (me : Agent) rs :
  sim_inv S → agents_list S !! i = Some me →
  ∃ S1 rs1,
    (let* (S', (old, new)) := choose S i in
     let* freq := lift (update_counters (tech_frequency S') old new) in
     ret (with_tech_frequency S' freq)) rs = Ok (S1, rs1) ∧
    sim_inv S1 ∧ same_frame S S1 ∧
    (∀ j, j ≠ i → agents_list S1 !! j = agents_list S !! j).
Proof.
  intros HS Hme.
  destruct (choose_spec S i me rs HS Hme) as (nbs & _ & _ & Hchoose).
  destruct Hchoose as [[_ Hc] | [_ (k & new & w & Hk & _ & _ & Hc)]].
  - exists S, rs. rewrite (bind_Ok _ _ _ _ _ Hc).
    cbn [update_counters rbind]. unfold lift, bind, ret.
    rewrite with_tech_frequency_same.
    split; [done |]. split; [done |]. split; [by repeat split | done].
  - apply list_elem_of_lookup_2 in Hk.
    destruct (adopt_inv S i me new HS Hme Hk) as (freq & Hupd & Hinv).
    exists (with_tech_frequency (adopt S i new) freq), (advance rs).
    rewrite (bind_Ok _ _ _ _ _ Hc).
    change (tech_frequency (adopt S i new)) with (tech_frequency S).
    rewrite (bind_Ok _ _ _ _ _ (lift_Ok _ _ _ Hupd)).
    split; [done |]. split; [done |]. split; [by repeat split |].
    intros j Hj. simpl. by rewrite list_lookup_alter_ne.
Qed.

Lemma step_spec (t : Z) (S : Simulation) rs :
  sim_inv S →
  ∃ S' rs', step t S rs = Ok (S', rs') ∧ sim_inv S' ∧ step_rel t S S'.
Proof.
  intros HS.
  assert (Hne : agents_list S ≠ []).
  { pose proof (inv_n_pos _ HS). pose proof (inv_agents_len _ HS).
    intros E. rewrite E in *. simpl in *. lia. }
  destruct (np_random_choice_spec (agents_list S) rs Hne) as (i & A & Hi & HA).
  pose proof (inv_ids _ HS _ _ Hi) as Hid.
  (* the activation decision and its effect *)
  assert (Hact : ∃ S1 rs1,
    (let* activated :=
       match get_technology A with
       | None => ret true
       | Some _ =>
           let* u := np_random_random in
           ret (Qlt_bool u (reconsideration_probability S))
       end in
     let* S1 :=
       if activated : bool then
         let* (S', (old, new)) := choose S (id_number A) in
         let* freq := lift (update_counters (tech_frequency S') old new) in
         ret (with_tech_frequency S' freq)
       else ret S in
     ret S1) (advance rs) = Ok (S1, rs1) ∧
    sim_inv S1 ∧ same_frame S S1 ∧
    ((reconsideration_probability S == 0)%Q →
     ∀ j tech, agent_technology S j = Some tech →
               agent_technology S1 j = Some tech)).
  { rewrite Hid. unfold get_technology.
    destruct (technology A) as [ta |] eqn:Hta.
    - destruct (np_random_random_spec (advance rs)) as (u & Hu & Hu0 & _).
      rewrite (bind_Ok _ _ _ (Qlt_bool u (reconsideration_probability S))
                 (advance (advance rs))).
      2: { by rewrite (bind_Ok _ _ _ _ _ Hu). }
      destruct (Qlt_bool u (reconsideration_probability S)) eqn:Hlt.
      + destruct (activation_spec S i A (advance (advance rs)) HS Hi)
          as (S1 & rs1 & Hrun & Hinv & Hframe & _).
        exists S1, rs1. rewrite (bind_Ok _ _ _ _ _ Hrun).
        split; [done |]. split; [done |]. split; [done |].
        intros Hp. apply Qlt_bool_iff in Hlt. rewrite Hp in Hlt. lra.
      + exists S, (advance (advance rs)).
        split; [done |]. split; [done |]. split; [by repeat split | done].
    - destruct (activation_spec S i A (advance rs) HS Hi)
        as (S1 & rs1 & Hrun & Hinv & Hframe & Hother).
      exists S1, rs1.
      rewrite (bind_Ok _ _ _ true (advance rs)) by done.
      rewrite (bind_Ok _ _ _ _ _ Hrun).
      split; [done |]. split; [done |]. split; [done |].
      intros _ j tech Hj. unfold agent_technology in *.
      destruct (decide (j = i)) as [-> | Hne'].
      + rewrite Hi, Hta in Hj. done.
      + by rewrite (Hother j Hne'). }
  destruct Hact as (S1 & rs1 & Hrun & Hinv & Hframe & Hkeep).
  destruct Hframe as (F1 & F2 & F3 & F4 & F5 & F6 & F7).
  destruct (record_shares_spec S1 Hinv) as (h & Hrec & Hin & Hout).
  exists (with_history S1 h (history_t S1 ++ [t])), rs1.
  split; [| split].
  - unfold step. rewrite (bind_Ok _ _ _ _ _ HA).
    pose proof (bind_split _ _
      (λ S1, let* h := lift (record_shares S1) in
             ret (with_history S1 h (history_t S1 ++ [t])))
      _ _ _ Hrun) as Hstep.
    etrans; [exact Hstep |].
    by rewrite (bind_Ok _ _ _ _ _ (lift_Ok _ _ _ Hrec)).
  - by apply record_inv.
  - constructor; simpl; try congruence.
    + intros tech Htech. rewrite <- F5 in Htech.
      destruct (Hin tech Htech) as (h0 & Hh0 & Hh1).
      exists h0, (share_of S1 tech). by rewrite <- F6.
    + exact Hkeep.
Qed.

(** ** Seeding *)

Lemma list_pop_snoc {A} (l : list A) (x : A) :
  list_pop (l ++ [x]) = Ok (x, l).
Proof. unfold list_pop. by rewrite last_snoc, removelast_last. Qed.

Lemma seed_one_spec (tl : list nat) (i j : nat) ea A ags freq :
  tl !! i = Some i → seed_inv tl (ea ++ [A], ags, freq) →
  ∃ ags',
    seed_one tl i j (ea ++ [A], ags, freq) = Ok (ea, ags', freq) ∧
    seed_inv tl (ea, ags', freq) ∧
    length ags' = length ags ∧
    (∀ k a, ags !! k = Some a →
            ∃ a', ags' !! k = Some a' ∧ agent_exponent a' = agent_exponent a) ∧
    (∀ t, count_tech t ags'
          = count_tech t ags + (if decide (t = i) then 1 else 0)).
Proof.
  intros Hi (Hids & Hnd & Hnone & Htech).
  rewrite map_app, NoDup_app in Hnd. destruct Hnd as (Hnd & Hfresh & _).
  destruct (Hnone A) as (a & Ha & Hat).
  { apply elem_of_app. right. left. }
  exists (alter (λ a, set_technology a (Some i)) (id_number A) ags).
  split; [| split; [| split; [| split]]].
  - unfold seed_one. rewrite list_pop_snoc. cbn [rbind]. by rewrite Hi.
  - split; [| split; [| split]].
    + intros k b Hb. destruct (decide (id_number A = k)) as [<- | Hne].
      * rewrite list_lookup_alter_eq, Ha in Hb. simpl in Hb. inv Hb. simpl.
        eauto.
      * rewrite list_lookup_alter_ne in Hb by done. eauto.
    + done.
    + intros B HB. destruct (Hnone B) as (b & Hb & Hbt).
      { apply elem_of_app. by left. }
      exists b. split; [| done]. rewrite list_lookup_alter_ne; [done |].
      intros E. apply (Hfresh (id_number B)).
      * apply list_elem_of_fmap. by exists B.
      * rewrite <- E. simpl. left.
    + intros k b t Hb Hbt. destruct (decide (id_number A = k)) as [<- | Hne].
      * rewrite list_lookup_alter_eq, Ha in Hb. simpl in Hb. inv Hb.
        simpl in Hbt. inv Hbt. eapply list_elem_of_lookup_2, Hi.
      * rewrite list_lookup_alter_ne in Hb by done. eauto.
  - by rewrite length_alter.
  - intros k b Hb. destruct (decide (id_number A = k)) as [<- | Hne].
    + rewrite list_lookup_alter_eq, Hb. simpl. eexists. split; [done |].
      done.
    + rewrite list_lookup_alter_ne by done. eauto.
  - intros t. rewrite (count_tech_alter t _ _ a _ Ha).
    cbn [set_technology technology]. rewrite Hat.
    rewrite (decide_False (P := None = Some t)) by done.
    destruct (decide (t = i)) as [-> | Hne].
    + rewrite (decide_True (P := Some i = Some i)) by done. lia.
    + rewrite (decide_False (P := Some i = Some t)) by congruence. lia.
Qed.

(** The inner loop: [m] adopters are taken from the end of the list. *)
Lemma seed_inner_spec (tl : list nat) (i : nat) (js : list nat) :
  tl !! i = Some i →
  ∀ ea ags freq,
  seed_inv tl (ea, ags, freq) → (length js ≤ length ea)%nat →
  ∃ ea' ags',
    for_each_r (seed_one tl i) js (ea, ags, freq) = Ok (ea', ags', freq) ∧
    seed_inv tl (ea', ags', freq) ∧
    length ags' = length ags ∧
    (length ea' + length js = length ea)%nat ∧
    (∀ k a, ags !! k = Some a →
            ∃ a', ags' !! k = Some a' ∧ agent_exponent a' = agent_exponent a) ∧
    (∀ t, count_tech t ags'
          = count_tech t ags
            + (if decide (t = i) then Z.of_nat (length js) else 0)).
Proof.
  intros Hi. induction js as [| j js IH]; intros ea ags freq Hinv Hlen.
  - exists ea, ags. split; [done |]. split; [done |]. split; [done |].
    split; [simpl; lia |]. split; [eauto |].
    intros t. destruct (decide (t = i)); simpl; lia.
  - simpl in Hlen.
    destruct (decide (ea = [])) as [-> | Hne]; [simpl in Hlen; lia |].
    apply last_is_Some in Hne as [A HA]. apply last_Some in HA as [ea0 ->].
    destruct (seed_one_spec tl i j ea0 A ags freq Hi Hinv)
      as (ags1 & Hone & Hinv1 & Hlen1 & Hexp1 & Hcount1).
    rewrite length_app in Hlen. simpl in Hlen.
    destruct (IH ea0 ags1 freq Hinv1 ltac:(lia))
      as (ea' & ags' & Hrun & Hinv' & Hlen' & Hea & Hexp' & Hcount').
    exists ea', ags'. split; [| split; [| split; [| split; [| split]]]].
    + cbn [for_each_r]. by rewrite Hone.
    + done.
    + congruence.
    + rewrite length_app. simpl. lia.
    + intros k a Ha. destruct (Hexp1 k a Ha) as (a1 & Ha1 & He1).
      destruct (Hexp' k a1 Ha1) as (a2 & Ha2 & He2).
      exists a2. split; [done | congruence].
    + intros t. rewrite Hcount', Hcount1.
      destruct (decide (t = i)); simpl length; lia.
Qed.

(** The outer loop: one technology after the other. *)
Lemma seed_outer_spec (tl : list nat) (n_init : Z) (l : list nat) :
  0 ≤ n_init → (∀ i, i ∈ l → tl !! i = Some i) → NoDup l →
  ∀ ea ags freq,
  seed_inv tl (ea, ags, freq) →
  (length l * Z.to_nat n_init ≤ length ea)%nat →
  (∀ t, t ∈ tl → freq !! t = Some (count_tech t ags)) →
  ∃ ea' ags' freq',
    for_each_r (seed_technology tl n_init) l (ea, ags, freq)
    = Ok (ea', ags', freq') ∧
    seed_inv tl (ea', ags', freq') ∧
    length ags' = length ags ∧
    (∀ k a, ags !! k = Some a →
            ∃ a', ags' !! k = Some a' ∧ agent_exponent a' = agent_exponent a) ∧
    (∀ t, t ∈ tl → freq' !! t = Some (count_tech t ags')).
Proof.
  intros Hn Hl Hnd. induction l as [| i l IH]; intros ea ags freq Hinv Hlen Hf.
  - exists ea, ags, freq. repeat split; eauto; apply Hinv.
  - apply NoDup_cons in Hnd as [Hi Hnd].
    pose proof (Hl i ltac:(left)) as Hii.
    simpl in Hlen.
    destruct (seed_inner_spec tl i (py_range n_init) Hii ea ags freq Hinv)
      as (ea1 & ags1 & Hrun1 & Hinv1 & Hlen1 & Hea1 & Hexp1 & Hcount1).
    { unfold py_range. rewrite length_seq. lia. }
    unfold py_range in Hea1, Hcount1. rewrite length_seq in Hea1, Hcount1.
    assert (Hin_i : i ∈ tl) by (eapply list_elem_of_lookup_2, Hii).
    set (freq1 := <[i := count_tech i ags + n_init]> freq).
    destruct (IH (λ k Hk, Hl k ltac:(by right)) Hnd ea1 ags1 freq1)
      as (ea' & ags' & freq' & Hrun & Hinv' & Hlen' & Hexp' & Hf').
    + destruct Hinv1 as (? & ? & ? & ?). done.
    + lia.
    + intros t Ht. unfold freq1. rewrite Hcount1.
      destruct (decide (t = i)) as [-> | Hne].
      * rewrite lookup_insert_eq. f_equal; lia.
      * rewrite lookup_insert_ne by done. rewrite (Hf t Ht). f_equal; lia.
    + exists ea', ags', freq'. split; [| split; [| split; [| split]]].
      * cbn [for_each_r]. unfold seed_technology at 1. rewrite Hrun1.
        cbn [rbind]. unfold dict_add. rewrite (Hf i Hin_i). cbn [rbind].
        exact Hrun.
      * done.
      * congruence.
      * intros k a Ha. destruct (Hexp1 k a Ha) as (a1 & Ha1 & He1).
        destruct (Hexp' k a1 Ha1) as (a2 & Ha2 & He2).
        exists a2. split; [done | congruence].
      * done.
Qed.

(** ** The constructor *)

Lemma fresh_agents_lookup (m exponent j : nat) (a : Agent) :
  map (λ i, mkAgent i None exponent) (py_range (Z.of_nat m)) !! j = Some a →
  a = mkAgent j None exponent ∧ (j < m)%nat.
Proof.
  unfold py_range. rewrite Nat2Z.id, list_lookup_fmap.
  destruct (seq 0 m !! j) as [k |] eqn:Hk; [| done].
  apply lookup_seq in Hk as [-> Hlt]. simpl. by intros [= <-].
Qed.

Lemma fresh_agents_length (m exponent : nat) :
  length (map (λ i, mkAgent i None exponent) (py_range (Z.of_nat m))) = m.
Proof. unfold py_range. by rewrite length_map, length_seq, Nat2Z.id. Qed.

Lemma py_range_lookup_self (K : Z) (i : nat) :
  i ∈ py_range K → py_range K !! i = Some i.
Proof.
  unfold py_range. intros Hi. apply elem_of_seq in Hi.
  apply lookup_seq. lia.
Qed.

Lemma init_spec (nx : NetworkX) (n K J : Z) (p : Q) (exponent : nat)
  (nt : string) (tmax : Z) rs (G0 : Graph) rs1 :
  generate_network nx nt n rs = Ok (G0, rs1) →
  order G0 = Z.to_nat n → graph_wf G0 →
  0 < n → 0 ≤ K → 0 ≤ J → K * J ≤ n →
  ∃ S0 rs0,
    Simulation_init nx n K J p exponent nt tmax rs = Ok (S0, rs0) ∧
    sim_inv S0 ∧
    n_agents S0 = n ∧ t_max S0 = tmax ∧ n_technologies S0 = K ∧
    reconsideration_probability S0 = p ∧
    choice_function_exponent S0 = exponent ∧ G S0 = G0 ∧
    history_t S0 = [0] ∧
    (∀ t, t ∈ technologies_list S0 →
          ∃ q, history_tech_frequency S0 !! t = Some [q]).
Proof.
  intros Hgen Horder Hwf Hn HK HJ HKJ.
  set (tl := py_range K).
  set (agents0 := map (λ i, mkAgent i None exponent)
                    (py_range (Z.of_nat (order G0)))).
  assert (Hlen0 : length agents0 = Z.to_nat n).
  { unfold agents0. by rewrite fresh_agents_length. }
  destruct (np_random_choice_noreplace_spec agents0 (K * J) rs1)
    as (early & rs2 & Hearly & Hearly_len & Hsub); [lia |].
  assert (Hseed0 :
    seed_inv tl (early, agents0,
                 dict_of_items (map (λ tech, (tech, 0)) tl))).
  { split; [| split; [| split]].
    - intros j a Ha. by apply fresh_agents_lookup in Ha as [-> _].
    - apply submseteq_Permutation in Hsub as [k Hk].
      assert (Hnd : NoDup (map id_number agents0)).
      { unfold agents0. rewrite map_map. simpl. rewrite map_id.
        apply NoDup_seq. }
      rewrite Hk, map_app in Hnd. by apply NoDup_app in Hnd as [? _].
    - intros A HA. pose proof (elem_of_submseteq _ _ _ HA Hsub) as HA0.
      apply list_elem_of_lookup in HA0 as [j Hj].
      pose proof (fresh_agents_lookup _ _ _ _ Hj) as [-> _].
      exists (mkAgent j None exponent). by split.
    - intros j a t Ha Ht.
      apply fresh_agents_lookup in Ha as [-> _]. done. }
  destruct (seed_outer_spec tl J tl HJ) with
    (ea := early) (ags := agents0)
    (freq := dict_of_items (map (λ tech, (tech, 0)) tl))
    as (ea' & ags' & freq' & Hseed & Hinv' & Hlen' & Hexp' & Hfreq').
  { apply py_range_lookup_self. }
  { apply NoDup_seq. }
  { exact Hseed0. }
  { unfold tl, py_range. rewrite length_seq, Hearly_len. nia. }
  { intros t Ht. rewrite dict_of_items_const_lookup, decide_True by done.
    rewrite count_tech_unadopted; [done |].
    apply Forall_forall. intros a Ha.
    apply list_elem_of_lookup in Ha as [j Hj].
    by apply fresh_agents_lookup in Hj as [-> _]. }
  assert (Hshare : ∀ t, t ∈ tl →
    share freq' n t = Ok (inject_Z (count_tech t ags') / inject_Z n)%Q).
  { intros t Ht. unfold share, dict_get. rewrite (Hfreq' t Ht).
    cbn [rbind]. unfold true_div.
    by destruct (Z.eqb_spec n 0); [lia |]. }
  set (item := λ t, (t, [(inject_Z (count_tech t ags') / inject_Z n)%Q])).
  assert (Hitems :
    comprehension (λ tech, let+ q := share freq' n tech in Ok (tech, [q])) tl
    = Ok (map item tl)).
  { apply comprehension_Ok, Forall_forall. intros t Ht.
    by rewrite (Hshare t Ht). }
  eexists _, rs2. split; [| split].
  - unfold Simulation_init. rewrite (bind_Ok _ _ _ _ _ Hgen).
    fold tl. fold agents0.
    rewrite (bind_Ok _ _ _ _ _ Hearly).
    rewrite (bind_Ok _ _ _ _ _ (lift_Ok _ _ _ Hseed)).
    rewrite (bind_Ok _ _ _ _ _ (lift_Ok _ _ _ Hitems)).
    reflexivity.
  - destruct Hinv' as (Hids & _ & _ & Htech).
    constructor; simpl; try done.
    + lia.
    + rewrite Hlen', Hlen0. congruence.
    + intros j a Ha.
      destruct (lookup_lt_is_Some_2 agents0 j) as [a0 Ha0].
      { rewrite <- Hlen'. eapply lookup_lt_Some, Ha. }
      destruct (Hexp' j a0 Ha0) as (a' & Ha' & He).
      rewrite Ha in Ha'. inv Ha'. rewrite He.
      by apply fresh_agents_lookup in Ha0 as [-> _].
    + intros t Ht. unfold item. rewrite (dict_of_items_lookup
        (λ t, [(inject_Z (count_tech t ags') / inject_Z n)%Q])).
      rewrite decide_True by done. eauto.
    + intros t h Hh. unfold item in Hh. rewrite (dict_of_items_lookup
        (λ t, [(inject_Z (count_tech t ags') / inject_Z n)%Q])) in Hh.
      destruct (decide (t ∈ tl)); [| done]. inv Hh.
      apply Forall_singleton. apply ratio_range; [| done].
      split; [apply count_tech_nonneg |].
      pose proof (count_tech_le_length t ags'). lia.
    + intros t Hsome. unfold item in Hsome. rewrite (dict_of_items_lookup
        (λ t, [(inject_Z (count_tech t ags') / inject_Z n)%Q])) in Hsome.
      destruct (decide (t ∈ tl)); [done |]. by destruct Hsome.
  - simpl. repeat split; try done.
    intros t Ht. unfold item. rewrite (dict_of_items_lookup
        (λ t, [(inject_Z (count_tech t ags') / inject_Z n)%Q])).
    rewrite decide_True by done. eauto.
Qed.

(** ** The time loop *)

Lemma steps_spec (ts : list Z) :
  ∀ (S : Simulation) rs, sim_inv S →
  ∃ S' rs', for_each step ts S rs = Ok (S', rs') ∧ sim_inv S' ∧
            run_rel ts S S'.
Proof.
  induction ts as [| t ts IH]; intros S rs HS.
  - exists S, rs. split; [done |]. split; [done |].
    constructor; try done.
    + by rewrite app_nil_r.
    + intros tech Htech.
      destruct (inv_hist_keys _ HS tech Htech) as [h Hh].
      exists h, []. by rewrite app_nil_r.
  - destruct (step_spec t S rs HS) as (S1 & rs1 & Hstep & HS1 & Hrel1).
    destruct (IH S1 rs1 HS1) as (S' & rs' & Hrun & HS' & Hrel).
    exists S', rs'. split; [| split; [done |]].
    + cbn [for_each]. by rewrite (bind_Ok _ _ _ _ _ Hstep).
    + destruct Hrel1 as [A1 A2 A3 A4 A5 A6 A7 A8].
      destruct Hrel as [B1 B2 B3 B4 B5 B6 B7 B8].
      constructor; try congruence.
      * rewrite B6, A6, <- app_assoc. done.
      * intros tech Htech.
        destruct (A7 tech Htech) as (h & q & Hh & Hh1).
        destruct (B7 tech ltac:(by rewrite A5)) as (h1 & h2 & Hh1' & Hh2 & Hl).
        rewrite Hh1 in Hh1'. inv Hh1'.
        exists h, (q :: h2). split; [done |].
        split; [by rewrite Hh2, <- app_assoc | simpl; lia].
      * intros Hp i tech Hi. apply B8; [by rewrite A4 | by apply A8].
Qed.

Lemma run_steps_all (k : nat) (S : Simulation) :
  (Z.to_nat (t_max S + 1) ≤ k)%nat → run_steps k S = run S.
Proof.
  intros Hk. unfold run_steps, run. rewrite take_ge; [done |].
  unfold py_range2. rewrite length_map, length_seq. lia.
Qed.

(** ** The counters never exceed the population *)

Lemma Zsum_map_add {A} (f g : A → Z) (l : list A) :
  Zsum (map (λ t, f t + g t) l) = Zsum (map f l) + Zsum (map g l).
Proof. induction l as [| x l IH]; simpl; [done | rewrite IH; lia]. Qed.

Lemma indicator_sum_absent (x : option nat) (tl : list nat) :
  (∀ t, t ∈ tl → x ≠ Some t) →
  Zsum (map (λ t, if decide (x = Some t) then 1 else 0) tl) = 0.
Proof.
  induction tl as [| t tl IH]; intros H; simpl; [done |].
  rewrite decide_False by (apply H; left).
  rewrite IH; [done |]. intros t' Ht'. apply H. by right.
Qed.

Lemma indicator_sum_le_1 (x : option nat) (tl : list nat) :
  NoDup tl →
  Zsum (map (λ t, if decide (x = Some t) then 1 else 0) tl) ≤ 1.
Proof.
  induction 1 as [| t tl Ht Hnd IH]; simpl; [lia |].
  destruct (decide (x = Some t)) as [-> | Hne]; [| lia].
  rewrite indicator_sum_absent; [lia |].
  intros t' Ht' [= ->]. done.
Qed.

Lemma sum_counts_le_length (tl : list nat) (agents : list Agent) :
  NoDup tl →
  Zsum (map (λ t, count_tech t agents) tl) ≤ Z.of_nat (length agents).
Proof.
  intros Hnd. induction agents as [| a agents IH].
  - rewrite (Zsum_zero (map _ tl)); [simpl; lia |].
    apply Forall_fmap, Forall_forall. by intros t _.
  - erewrite map_ext; [| intros t; apply count_tech_cons].
    rewrite Zsum_map_add.
    pose proof (indicator_sum_le_1 (technology a) tl Hnd).
    simpl length. lia.
Qed.

Lemma total_frequency_le (S : Simulation) :
  sim_inv S → total_frequency S ≤ n_agents S.
Proof.
  intros HS. unfold total_frequency.
  rewrite <- (inv_agents_len _ HS).
  erewrite (map_ext_in _ (λ t, count_tech t (agents_list S))).
  - apply sum_counts_le_length. rewrite (inv_tl _ HS). apply NoDup_seq.
  - intros t Ht. apply list_elem_of_In in Ht.
    by rewrite (inv_freq _ HS t Ht).
Qed.

(** ** Runs of a validly configured simulation *)

Section valid_runs.

Context (nx : NetworkX) (n K J : Z) (p : Q) (exponent : nat)
  (nt : string) (tmax : Z) (rs : RandomState) (G0 : Graph)
  (rs1 : RandomState).

(** The configuration is in the documented ranges, and the provider
    delivered a network on [n] nodes. *)
Hypothesis Hvalid : valid_configuration n K J p nt tmax.
Hypothesis Hgen : generate_network nx nt n rs = Ok (G0, rs1).
Hypothesis Horder : order G0 = Z.to_nat n.
Hypothesis Hwf : graph_wf G0.

(** The simulation is constructed, and every prefix of its run returns. *)
Lemma valid_run :
  ∃ S0 rs0,
    Simulation_init nx n K J p exponent nt tmax rs = Ok (S0, rs0) ∧
    sim_inv S0 ∧ n_agents S0 = n ∧ t_max S0 = tmax ∧
    n_technologies S0 = K ∧ reconsideration_probability S0 = p ∧
    history_t S0 = [0] ∧
    (∀ t, t ∈ technologies_list S0 →
          ∃ q, history_tech_frequency S0 !! t = Some [q]) ∧
    ∀ k, ∃ Sk rsk,
      run_steps k S0 rs0 = Ok (Sk, rsk) ∧ sim_inv Sk ∧
      run_rel (take k (py_range2 0 (tmax + 1))) S0 Sk.
Proof.
  destruct Hvalid as (Hn & HK & HJ & HKJ & _ & _ & _ & _).
  destruct (init_spec nx n K J p exponent nt tmax rs G0 rs1 Hgen Horder Hwf)
    as (S0 & rs0 & Hinit & HS0 & E1 & E2 & E3 & E4 & E5 & E6 & E7 & E8);
    [lia .. |].
  exists S0, rs0. repeat (split; [done |]).
  intros k. unfold run_steps. rewrite E2. by apply steps_spec.
Qed.


(** The complete run, and the number of its iterations. *)
Lemma complete_run :
  ∃ S0 rs0 Sf rsf,
    Simulation_init nx n K J p exponent nt tmax rs = Ok (S0, rs0) ∧
    run S0 rs0 = Ok (Sf, rsf) ∧
    sim_inv Sf ∧ n_technologies S0 = K ∧ history_t S0 = [0] ∧
    (∀ t, t ∈ technologies_list S0 →
          ∃ q, history_tech_frequency S0 !! t = Some [q]) ∧
    run_rel (py_range2 0 (tmax + 1)) S0 Sf ∧
    length (py_range2 0 (tmax + 1)) = (Z.to_nat tmax + 1)%nat.
Proof.
  pose proof Hvalid as (_ & _ & _ & _ & _ & _ & _ & Htmax).
  destruct valid_run
    as (S0 & rs0 & Hinit & HS0 & _ & Ht & HK & _ & Htime & Hhist & Hsteps).
  destruct (Hsteps (Z.to_nat (tmax + 1))) as (Sf & rsf & Hrun & HSf & Hrel).
  assert (Hlen : length (py_range2 0 (tmax + 1)) = (Z.to_nat tmax + 1)%nat).
  { unfold py_range2. rewrite length_map, length_seq. lia. }
  rewrite run_steps_all in Hrun by (rewrite Ht; lia).
  rewrite take_ge in Hrel by lia.
  exists S0, rs0, Sf, rsf. by repeat (split; [done |]).
Qed.


Lemma seq_sorted (m : nat) : ∀ a, Sorted le (seq a m).
Proof.
  induction m as [| m IH]; intros a; simpl; constructor; [apply IH |].
  destruct m; simpl; constructor. lia.
Qed.



End valid_runs.

(** ** Agents without an adopting neighbor *)

Lemma example_simulation_inv (exponent : nat) :
  sim_inv (example_simulation exponent).
Proof.
  destruct (init_spec ring_networkx 6 2 1 (1 # 5) exponent "Erdos-Renyi" 3
              (seeded example_stream) (ring_graph 6) (seeded example_stream))
    as (S0 & rs0 & Hinit & Hinv & _); try done.
  - unfold graph_wf. repeat constructor.
  - unfold example_simulation. by rewrite Hinit.
Qed.

Lemma get_neighbors_agents (S : Simulation) (i : nat) (nbs : list Agent) :
  get_neighbors S i = Ok nbs →
  ∃ nbrs, G S !! i = Some nbrs ∧
          Forall2 (λ j a, agents_list S !! j = Some a) nbrs nbs.
Proof.
  unfold get_neighbors, nx_neighbors.
  destruct (G S !! i) as [nbrs |]; [| done]. intros Hc.
  exists nbrs. split; [done |]. revert nbs Hc.
  induction nbrs as [| j nbrs IH]; intros nbs Hc; simpl in Hc.
  - inv Hc. constructor.
  - unfold node_agent at 1 in Hc.
    destruct (agents_list S !! j) as [a |] eqn:Ha; [| done].
    destruct (comprehension (node_agent S) nbrs) as [nbs' |]; [| done].
    inv Hc. constructor; [done | by apply IH].
Qed.




(** ** Exponent 0 *)

Lemma normalise_ones (tl : list nat) (q : Q) :
  q ∈ normalise (map (λ _ : nat, 1) tl) →
  (q == 1 / inject_Z (Z.of_nat (length tl)))%Q.
Proof.
  assert (Hsum : Zsum (map (λ _ : nat, 1) tl) = Z.of_nat (length tl)).
  { induction tl as [| t tl IH]; [done |].
    cbn [map Zsum foldr length] in *. unfold Zsum in IH. lia. }
  unfold normalise. rewrite Hsum. intros Hq.
  apply list_elem_of_fmap in Hq as (w & -> & Hw).
  apply list_elem_of_fmap in Hw as (t & -> & _). reflexivity.
Qed.

(** C7, amended: with exponent 0 every technology of the list has the
    weight 1, whatever the number of neighbors that hold it (also when no
    neighbor does), so [choose] draws from the uniform distribution over
    all technologies: each has probability 1/K. *)
Theorem exponent_zero_uniform (S : Simulation) (i : nat) (me : Agent) rs :
  sim_inv S → agents_list S !! i = Some me →
  choice_function_exponent S = 0%nat →
  let ones := map (λ _ : nat, 1) (technologies_list S) in
  neighborhood_weights S me = Ok ones ∧
  (∀ q, q ∈ normalise ones →
        (q == 1 / inject_Z (Z.of_nat (length (technologies_list S))))%Q) ∧
  (technologies_list S ≠ [] →
   choose S i rs
   = (let* new_tech :=
        np_random_choice_p (technologies_list S) (normalise ones) in
      ret (adopt S i new_tech, (technology me, Some new_tech))) rs).
Proof.
  intros HS Hme Hexp ones.
  destruct (neighborhood_weights_spec S i me HS Hme)
    as (nbs & _ & _ & Hws).
  rewrite (inv_exponent _ HS _ _ Hme), Hexp in Hws.
  assert (Hones : neighborhood_weights S me = Ok ones).
  { rewrite Hws. f_equal. }
  split; [done |]. split; [apply normalise_ones |].
  intros Hne. unfold choose.
  assert (Hnode : node_agent S i = Ok me).
  { unfold node_agent. by rewrite Hme. }
  rewrite (bind_Ok _ _ _ _ _ (lift_Ok _ _ rs Hnode)).
  rewrite (bind_Ok _ _ _ _ _ (lift_Ok _ _ rs Hones)).
  assert (Hpos : 0 < Zsum ones).
  { unfold ones. destruct (technologies_list S) as [| t tl]; [done |].
    cbn [map Zsum foldr].
    pose proof (Zsum_nonneg (map (λ _ : nat, 1) tl)) as Hnn.
    unfold Zsum in Hnn. simpl in Hnn.
    assert (Forall (Z.le 0) (map (λ _ : nat, 1) tl)).
    { apply Forall_fmap, Forall_forall. intros ? _. simpl. lia. }
    specialize (Hnn ltac:(done)). lia. }
  by destruct (Z.ltb_spec 0 (Zsum ones)); [| lia].
Qed.

Lemma exponent_zero_uniform_witness :
  neighborhood_weights (example_simulation 0) (mkAgent 0 None 0)
  = Ok [1; 1].
Proof.
  apply (exponent_zero_uniform (example_simulation 0) 0 (mkAgent 0 None 0)
           (seeded [0])).
  - apply example_simulation_inv.
  - reflexivity.
  - reflexivity.
Defined.

(** C7, as stated, fails: agent 0 of the example has the neighbors 1 and
    5, of which only agent 1 holds a technology (technology 0); technology
    1 has no adopting neighbor and yet has weight 1, and [choose] selects
    it when the draw falls in the upper half. *)
Lemma unadopted_technology_selected_at_exponent_zero :
  let S := example_simulation 0 in
  choice_function_exponent S = 0%nat ∧
  G S !! 0%nat = Some [1%nat; 5%nat] ∧
  agent_technology S 1 = Some 0%nat ∧ agent_technology S 5 = None ∧
  neighborhood_weights S (mkAgent 0 None 0) = Ok [1; 1] ∧
  choose S 0 (seeded [2 ^ 52])
  = Ok ((adopt S 0 1, (None, Some 1%nat)), advance (seeded [2 ^ 52])).
Proof.
  repeat split; vm_compute; reflexivity.
Qed.

(** ** What the constructor checks *)

Lemma generate_network_unknown (nx : NetworkX) (nt : string) (n : Z) rs :
  ¬ known_network_type nt →
  generate_network nx nt n rs = Raise AssertionError.
Proof.
  intros Hnt. unfold generate_network, known_network_type in *.
  destruct (String.eqb_spec nt "Erdos-Renyi"); [tauto |].
  destruct (String.eqb_spec nt "Barabasi-Albert"); [tauto |].
  destruct (String.eqb_spec nt "Watts-Strogatz"); [tauto |].
  done.
Qed.




(** ** Determinism under a fixed seed *)

Lemma rs_equiv_advance r1 r2 : rs_equiv r1 r2 → rs_equiv (advance r1) (advance r2).
Proof. intros [Hc Hb]. split; simpl; [by rewrite Hc | done]. Qed.

Lemma det_ret {A} (a : A) : deterministic (ret a).
Proof. intros r1 r2 H. by split. Qed.

Lemma det_raise {A} (e : exn) : deterministic (raise (A := A) e).
Proof. by intros r1 r2 H. Qed.

Lemma det_lift {A} (r : result A) : deterministic (lift r).
Proof. intros r1 r2 H. unfold lift. destruct r; by simpl. Qed.

Lemma det_bind {A B} (m : M A) (f : A → M B) :
  deterministic m → (∀ a, deterministic (f a)) → deterministic (bind m f).
Proof.
  intros Hm Hf r1 r2 H. specialize (Hm r1 r2 H). unfold bind.
  destruct (m r1) as [[a1 r1'] | e1], (m r2) as [[a2 r2'] | e2];
    simpl in Hm; try done.
  destruct Hm as [-> Hm]. by apply Hf.
Qed.

Lemma det_next_raw : deterministic next_raw.
Proof.
  intros r1 r2 H. pose proof H as [Hc Hb]. unfold next_raw. simpl.
  split; [by rewrite Hc, Hb | by apply rs_equiv_advance].
Qed.

Lemma det_for_each {A S} (body : A → S → M S) (l : list A) :
  (∀ a s, deterministic (body a s)) →
  ∀ s, deterministic (for_each body l s).
Proof.
  intros Hbody. induction l as [| a l IH]; intros s; simpl.
  - apply det_ret.
  - apply det_bind; [apply Hbody | apply IH].
Qed.

Ltac det_step :=
  first
    [ apply det_ret | apply det_raise | apply det_lift | apply det_next_raw
    | apply det_bind; [| intros ?]
    | match goal with
      | |- deterministic (if ?b then _ else _) => destruct b
      | |- deterministic (match ?x with _ => _ end) => destruct x
      end ].

Lemma det_random : deterministic np_random_random.
Proof. unfold np_random_random. repeat det_step. Qed.

Lemma det_randint n : deterministic (np_random_randint n).
Proof. unfold np_random_randint. repeat det_step. Qed.

Lemma det_choice {A} (a : list A) : deterministic (np_random_choice a).
Proof.
  unfold np_random_choice. destruct a; [apply det_raise |].
  apply det_bind; [apply det_randint | intros i]. repeat det_step.
Qed.

Lemma det_draw {A} (k : nat) :
  ∀ pool : list A, deterministic (draw_without_replacement k pool).
Proof.
  induction k as [| k IH]; intros pool; simpl; [apply det_ret |].
  apply det_bind; [apply det_randint | intros i].
  destruct (pool !! i); [| apply det_raise].
  apply det_bind; [apply IH | intros rest; apply det_ret].
Qed.

Lemma det_choice_noreplace {A} (a : list A) size :
  deterministic (np_random_choice_noreplace a size).
Proof.
  unfold np_random_choice_noreplace.
  destruct (size <? 0); [apply det_raise |].
  destruct (_ <? size); [apply det_raise | apply det_draw].
Qed.

Lemma det_choice_p {A} (a : list A) p :
  deterministic (np_random_choice_p a p).
Proof.
  unfold np_random_choice_p. destruct a; [apply det_raise |].
  destruct (negb _); [apply det_raise |].
  destruct (existsb _ _); [apply det_raise |].
  destruct (negb _); [apply det_raise |].
  apply det_bind; [apply det_random | intros u]. repeat det_step.
Qed.

Lemma det_choose (S : Simulation) (i : nat) : deterministic (choose S i).
Proof.
  unfold choose. apply det_bind; [apply det_lift | intros me].
  apply det_bind; [apply det_lift | intros ws].
  destruct (0 <? Zsum ws); [| apply det_ret].
  apply det_bind; [apply det_choice_p | intros new; apply det_ret].
Qed.

Lemma det_step_loop (t : Z) (S : Simulation) : deterministic (step t S).
Proof.
  unfold step. apply det_bind; [apply det_choice | intros A].
  apply det_bind.
  { destruct (get_technology A); [| apply det_ret].
    apply det_bind; [apply det_random | intros u; apply det_ret]. }
  intros activated. apply det_bind.
  { destruct activated; [| apply det_ret].
    apply det_bind; [apply det_choose | intros [S' [old new]]].
    apply det_bind; [apply det_lift | intros freq; apply det_ret]. }
  intros S1. apply det_bind; [apply det_lift | intros h; apply det_ret].
Qed.

Lemma det_run (S : Simulation) : deterministic (run S).
Proof. unfold run. apply det_for_each. intros t s. apply det_step_loop. Qed.

Section seeded_provider.

Context (nx : NetworkX) (Hnx : nx_deterministic nx).

Lemma det_generate_network nt n : deterministic (generate_network nx nt n).
Proof.
  destruct Hnx as (Her & Hba & Hws). unfold generate_network.
  destruct (String.eqb nt "Erdos-Renyi"); [apply Her |].
  destruct (String.eqb nt "Barabasi-Albert"); [apply Hba |].
  destruct (String.eqb nt "Watts-Strogatz"); [apply Hws | apply det_raise].
Qed.

Lemma det_init n K J p exponent nt tmax :
  deterministic (Simulation_init nx n K J p exponent nt tmax).
Proof.
  unfold Simulation_init.
  apply det_bind; [apply det_generate_network | intros G0].
  apply det_bind; [apply det_choice_noreplace | intros early].
  apply det_bind; [apply det_lift | intros [[ea ags] freq]].
  apply det_bind; [apply det_lift | intros items; apply det_ret].
Qed.

Lemma det_simulate n K J p exponent nt tmax :
  deterministic (simulate nx n K J p exponent nt tmax).
Proof.
  unfold simulate. apply det_bind; [apply det_init | intros S0].
  apply det_bind; [apply det_run | intros Sf; apply det_ret].
Qed.

End seeded_provider.



(** ** The properties on the example population *)

Ltac example_hypotheses :=
  lazymatch goal with
  | |- valid_configuration _ _ _ _ _ _ =>
      unfold valid_configuration, known_network_type, Qle; simpl;
      repeat split; first [lia | by left]
  | |- graph_wf _ => unfold graph_wf; repeat constructor
  | |- _ => reflexivity
  end.





(** * Further properties *)

(** ** What a step does, case by case *)

Lemma count_tech_pos (t : nat) (l : list Agent) :
  0 < count_tech t l → ∃ a, a ∈ l ∧ technology a = Some t.
Proof.
  induction l as [| a l IH]; [rewrite count_tech_nil; lia |].
  rewrite count_tech_cons.
  destruct (decide (technology a = Some t)) as [Ha | Ha].
  - intros _. exists a. split; [left | done].
  - intros Hpos. destruct IH as (b & Hb & Hbt); [lia |].
    exists b. split; [by right | done].
Qed.

Lemma activation_cases (S : Simulation) (i : nat) (me : Agent) rs :
  sim_inv S → agents_list S !! i = Some me →
  ∃ S1 rs1,
    (let* (S', (old, new)) := choose S i in
     let* freq := lift (update_counters (tech_frequency S') old new) in
     ret (with_tech_frequency S' freq)) rs = Ok (S1, rs1) ∧
    sim_inv S1 ∧ activation S S1.
Proof.
  intros HS Hme.
  destruct (choose_spec S i me rs HS Hme) as (nbs & Hnbs & _ & Hchoose).
  destruct Hchoose as [[_ Hc] | [_ (k & new & w & Hk & Hw & Hwpos & Hc)]].
  - exists S, rs. rewrite (bind_Ok _ _ _ _ _ Hc).
    cbn [update_counters rbind]. unfold lift, bind, ret.
    rewrite with_tech_frequency_same.
    split; [done |]. split; [done | constructor].
  - rewrite list_lookup_fmap, Hk in Hw. simpl in Hw.
    injection Hw as <-.
    apply list_elem_of_lookup_2 in Hk.
    destruct (adopt_inv S i me new HS Hme Hk) as (freq & Hupd & Hinv).
    exists (with_tech_frequency (adopt S i new) freq), (advance rs).
    rewrite (bind_Ok _ _ _ _ _ Hc).
    change (tech_frequency (adopt S i new)) with (tech_frequency S).
    rewrite (bind_Ok _ _ _ _ _ (lift_Ok _ _ _ Hupd)).
    split; [done |]. split; [done |]. by econstructor.
Qed.

Lemma step_cases (t : Z) (S : Simulation) rs :
  sim_inv S →
  ∃ S1 rs1 h,
    activation S S1 ∧ sim_inv S1 ∧ record_shares S1 = Ok h ∧
    step t S rs = Ok (with_history S1 h (history_t S1 ++ [t]), rs1).
Proof.
  intros HS.
  assert (Hne : agents_list S ≠ []).
  { pose proof (inv_n_pos _ HS). pose proof (inv_agents_len _ HS).
    intros E. rewrite E in *. simpl in *. lia. }
  destruct (np_random_choice_spec (agents_list S) rs Hne) as (i & A & Hi & HA).
  pose proof (inv_ids _ HS _ _ Hi) as Hid.
  assert (Hact : ∃ S1 rs1,
    (let* activated :=
       match get_technology A with
       | None => ret true
       | Some _ =>
           let* u := np_random_random in
           ret (Qlt_bool u (reconsideration_probability S))
       end in
     let* S1 :=
       if activated : bool then
         let* (S', (old, new)) := choose S (id_number A) in
         let* freq := lift (update_counters (tech_frequency S') old new) in
         ret (with_tech_frequency S' freq)
       else ret S in
     ret S1) (advance rs) = Ok (S1, rs1) ∧
    sim_inv S1 ∧ activation S S1).
  { rewrite Hid. unfold get_technology.
    destruct (technology A) as [ta |] eqn:Hta.
    - destruct (np_random_random_spec (advance rs)) as (u & Hu & _).
      rewrite (bind_Ok _ _ _ (Qlt_bool u (reconsideration_probability S))
                 (advance (advance rs))).
      2: { by rewrite (bind_Ok _ _ _ _ _ Hu). }
      destruct (Qlt_bool u (reconsideration_probability S)).
      + destruct (activation_cases S i A (advance (advance rs)) HS Hi)
          as (S1 & rs1 & Hrun & Hinv & Hcase).
        exists S1, rs1. by rewrite (bind_Ok _ _ _ _ _ Hrun).
      + exists S, (advance (advance rs)).
        split; [done |]. split; [done | constructor].
    - destruct (activation_cases S i A (advance rs) HS Hi)
        as (S1 & rs1 & Hrun & Hinv & Hcase).
      exists S1, rs1.
      rewrite (bind_Ok _ _ _ true (advance rs)) by done.
      by rewrite (bind_Ok _ _ _ _ _ Hrun). }
  destruct Hact as (S1 & rs1 & Hrun & Hinv & Hcase).
  destruct (record_shares_spec S1 Hinv) as (h & Hrec & _).
  exists S1, rs1, h. repeat (split; [done |]).
  unfold step. rewrite (bind_Ok _ _ _ _ _ HA).
  pose proof (bind_split _ _
    (λ S1, let* h := lift (record_shares S1) in
           ret (with_history S1 h (history_t S1 ++ [t])))
    _ _ _ Hrun) as Hstep.
  etrans; [exact Hstep |].
  by rewrite (bind_Ok _ _ _ _ _ (lift_Ok _ _ _ Hrec)).
Qed.

(** ** What an activation keeps and what it changes *)

Lemma activation_frame (S S1 : Simulation) :
  activation S S1 →
  G S1 = G S ∧ same_frame S S1 ∧
  n_initial_adopters S1 = n_initial_adopters S ∧
  choice_function_exponent S1 = choice_function_exponent S ∧
  length (agents_list S1) = length (agents_list S).
Proof.
  intros [| i me new freq nbs Hme Hnbs Hnew Hw Hupd].
  - by repeat split.
  - simpl. repeat split. by rewrite length_alter.
Qed.

(** At most one agent changes, and it ends up holding a technology. *)
Lemma activation_agents (S S1 : Simulation) :
  activation S S1 →
  ∃ i, (∀ j, j ≠ i → agents_list S1 !! j = agents_list S !! j) ∧
       (agent_technology S1 i = agent_technology S i ∨
        is_Some (agent_technology S1 i)).
Proof.
  intros [| i me new freq nbs Hme Hnbs Hnew Hw Hupd].
  - exists 0%nat. split; [done | by left].
  - exists i. split.
    + intros j Hj. simpl. by rewrite list_lookup_alter_ne.
    + right. unfold agent_technology. simpl.
      rewrite list_lookup_alter_eq, Hme. simpl. eauto.
Qed.

Lemma activation_keeps_adopted (S S1 : Simulation) (j : nat) :
  activation S S1 →
  is_Some (agent_technology S j) → is_Some (agent_technology S1 j).
Proof.
  intros Hact Hj. destruct (activation_agents S S1 Hact) as (i & Hother & Hi).
  destruct (decide (j = i)) as [-> | Hne].
  - destruct Hi as [-> | Hi]; done.
  - unfold agent_technology in *. by rewrite (Hother j Hne).
Qed.

Lemma adopted_cons (a : Agent) (l : list Agent) :
  Z.of_nat (length (filter (λ a, is_Some (technology a)) (a :: l)))
  = (if decide (is_Some (technology a)) then 1 else 0)
    + Z.of_nat (length (filter (λ a, is_Some (technology a)) l)).
Proof.
  rewrite filter_cons.
  destruct (decide (is_Some (technology a))); simpl length; lia.
Qed.

Lemma adopted_alter (f : Agent → Agent) (i : nat) (a : Agent)
  (l : list Agent) :
  l !! i = Some a →
  Z.of_nat (length (filter (λ a, is_Some (technology a)) (alter f i l)))
  = Z.of_nat (length (filter (λ a, is_Some (technology a)) l))
    - (if decide (is_Some (technology a)) then 1 else 0)
    + (if decide (is_Some (technology (f a))) then 1 else 0).
Proof.
  revert i. induction l as [| b l IH]; intros i Hi; [done |].
  destruct i as [| i]; simpl in Hi.
  - inv Hi. change (alter f 0%nat (a :: l)) with (f a :: l).
    rewrite !adopted_cons. lia.
  - change (alter f (S i) (b :: l)) with (b :: alter f i l).
    rewrite !adopted_cons, (IH i Hi). lia.
Qed.

(** An activation adds at most one adopter and removes none. *)
Lemma activation_adopters (S S1 : Simulation) :
  activation S S1 → adopters S ≤ adopters S1 ≤ adopters S + 1.
Proof.
  intros [| i me new freq nbs Hme Hnbs Hnew Hw Hupd]; [lia |].
  unfold adopters. simpl. rewrite (adopted_alter _ i me) by done.
  cbn [set_technology technology].
  rewrite (decide_True (P := is_Some (Some new))) by eauto.
  destruct (decide (is_Some (technology me))); lia.
Qed.

(** ** The counters count the adopters *)

Lemma indicator_sum_present (t0 : nat) (tl : list nat) :
  NoDup tl → t0 ∈ tl →
  Zsum (map (λ t, if decide (Some t0 = Some t) then 1 else 0) tl) = 1.
Proof.
  induction 1 as [| t tl Ht Hnd IH]; intros Hin; [by inv Hin |].
  cbn [map Zsum foldr]. fold (Zsum (map (λ t, if decide (Some t0 = Some t)
                                               then 1 else 0) tl)).
  destruct (decide (Some t0 = Some t)) as [[= ->] | Hne].
  - rewrite indicator_sum_absent; [lia |]. intros t' Ht' [= ->]. done.
  - apply elem_of_cons in Hin as [-> | Hin]; [done |]. rewrite IH; [lia | done].
Qed.

Lemma sum_counts_adopted (tl : list nat) (agents : list Agent) :
  NoDup tl →
  Forall (λ a, ∀ t, technology a = Some t → t ∈ tl) agents →
  Zsum (map (λ t, count_tech t agents) tl)
  = Z.of_nat (length (filter (λ a, is_Some (technology a)) agents)).
Proof.
  intros Hnd. induction 1 as [| a agents Ha _ IH].
  - rewrite (Zsum_zero (map _ tl)); [done |].
    apply Forall_fmap, Forall_forall. by intros t _.
  - erewrite map_ext; [| intros t; apply count_tech_cons].
    rewrite Zsum_map_add, IH, adopted_cons.
    destruct (technology a) as [t0 |] eqn:Hta.
    + rewrite indicator_sum_present by eauto.
      by rewrite decide_True by eauto.
    + rewrite indicator_sum_absent by done.
      rewrite decide_False; [done |]. by intros [? ?].
Qed.

Lemma total_frequency_adopters (S : Simulation) :
  sim_inv S → total_frequency S = adopters S.
Proof.
  intros HS. unfold total_frequency, adopters.
  erewrite (map_ext_in _ (λ t, count_tech t (agents_list S))).
  - apply sum_counts_adopted.
    + rewrite (inv_tl _ HS). apply NoDup_seq.
    + apply Forall_forall. intros a Ha t Ht.
      apply list_elem_of_lookup in Ha as [j Hj].
      eapply inv_tech; eauto.
  - intros t Ht. apply list_elem_of_In in Ht.
    by rewrite (inv_freq _ HS t Ht).
Qed.

(** ** The state the constructor leaves *)

Lemma seed_inner_freq (tl : list nat) (i : nat) (js : list nat) :
  ∀ ea ags freq ea' ags' freq',
  for_each_r (seed_one tl i) js (ea, ags, freq) = Ok (ea', ags', freq') →
  freq' = freq.
Proof.
  induction js as [| j js IH]; intros ea ags freq ea' ags' freq' Hrun.
  - by injection Hrun as _ _ ->.
  - cbn [for_each_r] in Hrun. unfold seed_one at 1 in Hrun.
    destruct (list_pop ea) as [[A ea1] |]; [| done]. cbn [rbind] in Hrun.
    destruct (tl !! i); [| done]. by eapply IH.
Qed.

Lemma seed_outer_freq (tl : list nat) (n_init : Z) (l : list nat) :
  NoDup l →
  ∀ ea ags freq ea' ags' freq',
  for_each_r (seed_technology tl n_init) l (ea, ags, freq)
  = Ok (ea', ags', freq') →
  ∀ t, freq' !! t
       = if decide (t ∈ l) then (λ v, v + n_init) <$> freq !! t
         else freq !! t.
Proof.
  induction 1 as [| i l Hi Hnd IH]; intros ea ags freq ea' ags' freq' Hrun t.
  - injection Hrun as _ _ ->. by rewrite decide_False by apply not_elem_of_nil.
  - cbn [for_each_r] in Hrun. unfold seed_technology at 1 in Hrun.
    destruct (for_each_r (seed_one tl i) (py_range n_init) (ea, ags, freq))
      as [[[ea1 ags1] freq1] |] eqn:Hinner; [| done].
    apply seed_inner_freq in Hinner as ->. cbn [rbind] in Hrun.
    unfold dict_add in Hrun. destruct (freq !! i) as [v |] eqn:Hv; [| done].
    cbn [rbind] in Hrun. rewrite (IH _ _ _ _ _ _ Hrun t).
    destruct (decide (t = i)) as [-> | Hne].
    + rewrite decide_False by done. rewrite decide_True by left.
      by rewrite lookup_insert_eq, Hv.
    + rewrite lookup_insert_ne by done.
      destruct (decide (t ∈ l)) as [Hin | Hnin].
      * by rewrite decide_True by (by right).
      * by rewrite decide_False by (rewrite elem_of_cons; tauto).
Qed.

(** Whenever the constructor returns, every technology's counter is
    [n_initial_adopters] and its history holds the one sample
    [n_initial_adopters / n_agents]; the time sequence is [0]. *)
Lemma init_exact (nx : NetworkX) (n K J : Z) (p : Q) (exponent : nat)
  (nt : string) (tmax : Z) rs (S0 : Simulation) rs0 :
  Simulation_init nx n K J p exponent nt tmax rs = Ok (S0, rs0) →
  n_agents S0 = n ∧ n_technologies S0 = K ∧ n_initial_adopters S0 = J ∧
  technologies_list S0 = py_range K ∧ history_t S0 = [0] ∧
  ∀ t, t ∈ py_range K →
       tech_frequency S0 !! t = Some J ∧
       history_tech_frequency S0 !! t
       = Some [(inject_Z J / inject_Z n)%Q].
Proof.
  intros Hinit. unfold Simulation_init, bind, lift, ret in Hinit.
  destruct (generate_network nx nt n rs) as [[G0 rs1] |]; [| done].
  destruct (np_random_choice_noreplace _ _ rs1) as [[early rs2] |];
    [| done].
  destruct (for_each_r _ _ _) as [[[ea ags] freq] |] eqn:Hseed; [| done].
  destruct (comprehension _ _) as [items |] eqn:Hitems; [| done].
  injection Hinit as <- <-. cbn.
  repeat (split; [done |]).
  assert (Hfreq : ∀ t, t ∈ py_range K → freq !! t = Some J).
  { intros t Ht.
    rewrite (seed_outer_freq _ _ _ (NoDup_seq _ _) _ _ _ _ _ _ Hseed t).
    rewrite decide_True by done.
    by rewrite dict_of_items_const_lookup, decide_True by done. }
  intros t Ht. split; [by apply Hfreq |].
  destruct (decide (n = 0)) as [-> | Hn].
  { exfalso. unfold py_range in *.
    destruct (seq 0 (Z.to_nat K)) as [| t0 tl]; [by inv Ht |].
    cbn [comprehension] in Hitems. unfold share, dict_get in Hitems.
    rewrite (Hfreq t0 ltac:(left)) in Hitems. done. }
  rewrite (comprehension_Ok _
             (λ t, (t, [(inject_Z J / inject_Z n)%Q])) (py_range K))
    in Hitems.
  - injection Hitems as <-.
    rewrite (dict_of_items_lookup (λ t, [(inject_Z J / inject_Z n)%Q])).
    by rewrite decide_True.
  - apply Forall_forall. intros t' Ht'. unfold share, dict_get.
    rewrite (Hfreq t' Ht'). cbn [rbind]. unfold true_div.
    by destruct (Z.eqb_spec n 0).
Qed.

(** ** Lifting a property of one step to a run *)

Lemma steps_lift (R : relation Simulation) :
  Reflexive R → Transitive R →
  (∀ S S1 h t, sim_inv S → activation S S1 → sim_inv S1 →
               record_shares S1 = Ok h →
               R S (with_history S1 h (history_t S1 ++ [t]))) →
  ∀ ts S rs, sim_inv S →
  ∃ S' rs', for_each step ts S rs = Ok (S', rs') ∧ sim_inv S' ∧ R S S'.
Proof.
  intros Hrefl Htrans Hstep.
  induction ts as [| t ts IH]; intros S rs HS.
  - exists S, rs. split; [done |]. split; [done | apply Hrefl].
  - destruct (step_cases t S rs HS) as (S1 & rs1 & h & Hact & HS1 & Hrec & Hrun).
    pose proof (record_inv S1 h t HS1 Hrec) as HS2.
    destruct (IH _ rs1 HS2) as (S' & rs' & Hrest & HS' & HR).
    exists S', rs'. split; [| split; [done |]].
    + cbn [for_each]. by rewrite (bind_Ok _ _ _ _ _ Hrun).
    + etrans; [| exact HR]. by apply Hstep.
Qed.

(** The run up to step [k] is the run up to step [j <= k], continued. *)
Lemma run_steps_split (S0 : Simulation) rs0 (j k : nat) :
  sim_inv S0 → (j ≤ k)%nat →
  ∃ Sj rsj,
    run_steps j S0 rs0 = Ok (Sj, rsj) ∧ sim_inv Sj ∧
    run_steps k S0 rs0
    = for_each step (drop j (take k (py_range2 0 (t_max S0 + 1)))) Sj rsj.
Proof.
  intros HS0 Hjk. unfold run_steps.
  set (L := py_range2 0 (t_max S0 + 1)).
  destruct (steps_spec (take j L) S0 rs0 HS0) as (Sj & rsj & Hrun & HSj & _).
  exists Sj, rsj. split; [done |]. split; [done |].
  rewrite <- (take_drop j (take k L)) at 1.
  rewrite take_take, Nat.min_l by done.
  rewrite for_each_app. by rewrite (bind_Ok _ _ _ _ _ Hrun).
Qed.

Lemma run_steps_lift (R : relation Simulation) :
  Reflexive R → Transitive R →
  (∀ S S1 h t, sim_inv S → activation S S1 → sim_inv S1 →
               record_shares S1 = Ok h →
               R S (with_history S1 h (history_t S1 ++ [t]))) →
  ∀ S0 rs0 j k, sim_inv S0 → (j ≤ k)%nat →
  ∃ Sj rsj Sk rsk,
    run_steps j S0 rs0 = Ok (Sj, rsj) ∧ run_steps k S0 rs0 = Ok (Sk, rsk) ∧
    sim_inv Sj ∧ sim_inv Sk ∧ R S0 Sj ∧ R Sj Sk.
Proof.
  intros Hrefl Htrans Hstep S0 rs0 j k HS0 Hjk.
  destruct (run_steps_split S0 rs0 j k HS0 Hjk) as (Sj & rsj & Hj & HSj & Hk).
  destruct (steps_lift R Hrefl Htrans Hstep
              (drop j (take k (py_range2 0 (t_max S0 + 1)))) Sj rsj HSj)
    as (Sk & rsk & Hrest & HSk & HR).
  destruct (steps_lift R Hrefl Htrans Hstep
              (take j (py_range2 0 (t_max S0 + 1))) S0 rs0 HS0)
    as (Sj' & rsj' & Hj' & _ & HR0).
  unfold run_steps in Hj. rewrite Hj in Hj'. injection Hj' as <- <-.
  exists Sj, rsj, Sk, rsk. rewrite Hk. by repeat (split; [done |]).
Qed.

(** ** The relations hold of every step *)

Lemma keeps_adopted_step (S S1 : Simulation) h t :
  sim_inv S → activation S S1 → sim_inv S1 → record_shares S1 = Ok h →
  keeps_adopted S (with_history S1 h (history_t S1 ++ [t])).
Proof.
  intros _ Hact _ _ i Hi.
  by apply (activation_keeps_adopted S S1 i Hact).
Qed.

Lemma adopters_step (S S1 : Simulation) h t :
  sim_inv S → activation S S1 → sim_inv S1 → record_shares S1 = Ok h →
  adopters S ≤ adopters (with_history S1 h (history_t S1 ++ [t])).
Proof.
  intros _ Hact _ _. apply (activation_adopters S S1 Hact).
Qed.

Lemma fixed_setting_step (S S1 : Simulation) h t :
  sim_inv S → activation S S1 → sim_inv S1 → record_shares S1 = Ok h →
  fixed_setting S (with_history S1 h (history_t S1 ++ [t])).
Proof.
  intros _ Hact _ _. unfold fixed_setting. cbn.
  destruct Hact as [| i me new freq nbs Hme Hnbs Hnew Hw Hupd];
    [by repeat split |].
  cbn. repeat (split; [done |]).
  assert (Hmap : ∀ {B} (f : Agent → B),
    (∀ a, f (set_technology a (Some new)) = f a) →
    map f (alter (λ A, set_technology A (Some new)) i (agents_list S))
    = map f (agents_list S)).
  { intros B f Hf. apply list_eq. intros j.
    rewrite !list_lookup_fmap.
    destruct (decide (i = j)) as [-> | Hne].
    - rewrite list_lookup_alter_eq. destruct (agents_list S !! j); simpl;
        [by rewrite Hf | done].
    - by rewrite list_lookup_alter_ne. }
  split; by apply Hmap.
Qed.

Lemma history_extends_step (S S1 : Simulation) h t :
  sim_inv S → activation S S1 → sim_inv S1 → record_shares S1 = Ok h →
  history_extends S (with_history S1 h (history_t S1 ++ [t])).
Proof.
  intros HS Hact HS1 Hrec.
  destruct (activation_frame S S1 Hact)
    as (_ & (_ & _ & _ & _ & Htl & Hh & Ht) & _).
  destruct (record_shares_spec S1 HS1) as (h' & Hrec' & Hin & Hout).
  rewrite Hrec in Hrec'. injection Hrec' as <-.
  split; cbn.
  - exists [t]. by rewrite Ht.
  - intros tech h0 Hh0. rewrite <- Hh in Hh0.
    assert (Htech : tech ∈ technologies_list S1).
    { apply (inv_hist_dom _ HS1). by exists h0. }
    destruct (Hin tech Htech) as (h1 & Hh1 & Hh2).
    rewrite Hh0 in Hh1. injection Hh1 as <-. eauto.
Qed.

Lemma history_in_sync_step (S S1 : Simulation) h t :
  sim_inv S → activation S S1 → sim_inv S1 → record_shares S1 = Ok h →
  history_in_sync (with_history S1 h (history_t S1 ++ [t])).
Proof.
  intros _ _ HS1 Hrec.
  destruct (record_shares_spec S1 HS1) as (h' & Hrec' & Hin & _).
  rewrite Hrec in Hrec'. injection Hrec' as <-.
  intros tech Htech. cbn in Htech.
  destruct (Hin tech Htech) as (h0 & _ & Hh0). by exists h0.
Qed.

Global Instance keeps_adopted_refl : Reflexive keeps_adopted.
Proof. by intros S i. Qed.

Global Instance keeps_adopted_trans : Transitive keeps_adopted.
Proof. intros S1 S2 S3 H12 H23 i Hi. by apply H23, H12. Qed.

Global Instance fixed_setting_refl : Reflexive fixed_setting.
Proof. intros S. by repeat split. Qed.

Global Instance fixed_setting_trans : Transitive fixed_setting.
Proof.
  intros S1 S2 S3 (A1 & A2 & A3 & A4 & A5 & A6 & A7 & A8 & A9 & A10)
    (B1 & B2 & B3 & B4 & B5 & B6 & B7 & B8 & B9 & B10).
  repeat split; congruence.
Qed.

Global Instance history_extends_refl : Reflexive history_extends.
Proof.
  intros S. split.
  - exists []. by rewrite app_nil_r.
  - intros t h Hh. exists []. by rewrite app_nil_r.
Qed.

Global Instance history_extends_trans : Transitive history_extends.
Proof.
  intros S1 S2 S3 [[ts1 Ht1] H12] [[ts2 Ht2] H23]. split.
  - exists (ts1 ++ ts2). by rewrite Ht2, Ht1, app_assoc.
  - intros t h Hh. destruct (H12 t h Hh) as (h2 & Hh2).
    destruct (H23 t _ Hh2) as (h3 & Hh3).
    exists (h2 ++ h3). by rewrite Hh3, app_assoc.
Qed.

(** ** Further properties of validly configured runs *)

Lemma Zsum_const (c : Z) (l : list nat) :
  Zsum (map (λ _, c) l) = Z.of_nat (length l) * c.
Proof.
  induction l as [| x l IH]; [done |].
  cbn [map Zsum foldr length] in *. unfold Zsum in IH. lia.
Qed.

Lemma drop_take_succ {A} (L : list A) (k : nat) :
  drop k (take (S k) L)
  = match L !! k with Some t => [t] | None => [] end.
Proof.
  destruct (L !! k) as [t |] eqn:Hk.
  - rewrite (take_S_r _ _ _ Hk).
    pose proof (lookup_lt_Some _ _ _ Hk) as Hlt.
    rewrite <- (length_take_le L k) at 1 by lia.
    apply drop_app_length.
  - apply lookup_ge_None in Hk. rewrite take_ge by lia.
    apply drop_ge. lia.
Qed.

Section valid_runs_further.

Context (nx : NetworkX) (n K J : Z) (p : Q) (exponent : nat)
  (nt : string) (tmax : Z) (rs : RandomState) (G0 : Graph)
  (rs1 : RandomState).

Hypothesis Hvalid : valid_configuration n K J p nt tmax.
Hypothesis Hgen : generate_network nx nt n rs = Ok (G0, rs1).
Hypothesis Horder : order G0 = Z.to_nat n.
Hypothesis Hwf : graph_wf G0.

(** The constructed simulation and what is known of it. *)
Lemma constructed :
  ∃ S0 rs0,
    Simulation_init nx n K J p exponent nt tmax rs = Ok (S0, rs0) ∧
    sim_inv S0 ∧ G S0 = G0 ∧ n_agents S0 = n ∧ t_max S0 = tmax ∧
    n_technologies S0 = K ∧ n_initial_adopters S0 = J ∧
    reconsideration_probability S0 = p ∧
    choice_function_exponent S0 = exponent ∧
    technologies_list S0 = py_range K ∧ history_t S0 = [0] ∧
    (∀ t, t ∈ py_range K →
          tech_frequency S0 !! t = Some J ∧
          count_tech t (agents_list S0) = J ∧
          history_tech_frequency S0 !! t
          = Some [(inject_Z J / inject_Z n)%Q]) ∧
    adopters S0 = K * J ∧ history_in_sync S0.
Proof.
  destruct Hvalid as (Hn & HK & HJ & HKJ & _ & _ & _ & _).
  destruct (init_spec nx n K J p exponent nt tmax rs G0 rs1 Hgen Horder Hwf)
    as (S0 & rs0 & Hinit & HS0 & E1 & E2 & E3 & E4 & E5 & E6 & E7 & E8);
    [lia .. |].
  destruct (init_exact _ _ _ _ _ _ _ _ _ _ _ Hinit)
    as (_ & _ & F3 & F4 & _ & Hexact).
  assert (Hcount : ∀ t, t ∈ py_range K →
                        count_tech t (agents_list S0) = J).
  { intros t Ht. destruct (Hexact t Ht) as [Hf _].
    rewrite (inv_freq _ HS0 t) in Hf by (by rewrite F4). congruence. }
  exists S0, rs0. repeat (split; [done |]). split; [| split].
  - intros t Ht. destruct (Hexact t Ht) as [Hf Hh]. auto.
  - rewrite <- (total_frequency_adopters S0 HS0). unfold total_frequency.
    rewrite F4. erewrite (map_ext_in _ (λ _, J)).
    + rewrite Zsum_const. unfold py_range. rewrite length_seq. lia.
    + intros t Ht. apply list_elem_of_In in Ht.
      destruct (Hexact t Ht) as [-> _]. done.
  - intros t Ht. rewrite F4 in Ht. destruct (Hexact t Ht) as [_ Hh].
    exists []. rewrite Hh. unfold share_of. by rewrite (Hcount t Ht), E1.
Qed.

(** X1: the construction seeds every technology alike: its counter is
    [n_initial_adopters], exactly that many agents hold it, its first
    sample is [n_initial_adopters / n_agents], and all in all
    [n_technologies * n_initial_adopters] agents have adopted. *)
Theorem seeding_is_even :
  ∃ S0 rs0,
    Simulation_init nx n K J p exponent nt tmax rs = Ok (S0, rs0) ∧
    (∀ t, t ∈ py_range K →
          tech_frequency S0 !! t = Some J ∧
          count_tech t (agents_list S0) = J ∧
          history_tech_frequency S0 !! t
          = Some [(inject_Z J / inject_Z n)%Q]) ∧
    adopters S0 = K * J ∧
    Z.of_nat (length (agents_list S0)) - adopters S0 = n - K * J.
Proof.
  destruct constructed
    as (S0 & rs0 & Hinit & HS0 & _ & Hn & _ & _ & _ & _ & _ & _ & _
        & Hexact & Hadopt & _).
  exists S0, rs0. repeat (split; [done |]).
  rewrite (inv_agents_len _ HS0), Hadopt, Hn. done.
Qed.

(** A run from the constructed simulation, with a relation lifted from
    the single step. *)
Lemma run_from_constructed (R : relation Simulation) :
  Reflexive R → Transitive R →
  (∀ S S1 h t, sim_inv S → activation S S1 → sim_inv S1 →
               record_shares S1 = Ok h →
               R S (with_history S1 h (history_t S1 ++ [t]))) →
  ∃ S0 rs0,
    Simulation_init nx n K J p exponent nt tmax rs = Ok (S0, rs0) ∧
    adopters S0 = K * J ∧ history_in_sync S0 ∧ G S0 = G0 ∧
    n_initial_adopters S0 = J ∧ choice_function_exponent S0 = exponent ∧
    n_agents S0 = n ∧ technologies_list S0 = py_range K ∧
    ∀ j k, (j ≤ k)%nat →
      ∃ Sj rsj Sk rsk,
        run_steps j S0 rs0 = Ok (Sj, rsj) ∧
        run_steps k S0 rs0 = Ok (Sk, rsk) ∧
        sim_inv Sj ∧ sim_inv Sk ∧ R S0 Sj ∧ R Sj Sk.
Proof.
  intros Hrefl Htrans Hstep.
  destruct constructed
    as (S0 & rs0 & Hinit & HS0 & HG & Hn & _ & _ & HJ & _ & He & Htl & _
        & _ & Hadopt & Hsync).
  exists S0, rs0. repeat (split; [done |]).
  intros j k Hjk. by apply run_steps_lift.
Qed.







End valid_runs_further.

(** ** What [choose] returns *)

Lemma Zsum_nonneg_zero (ws : list Z) :
  Forall (Z.le 0) ws → Zsum ws ≤ 0 → Forall (λ w, w = 0) ws.
Proof.
  induction 1 as [| w ws Hw Hws IH]; intros Hsum; [constructor |].
  cbn [Zsum foldr] in Hsum. fold (Zsum ws) in Hsum.
  pose proof (Zsum_nonneg ws Hws).
  constructor; [lia | apply IH; lia].
Qed.

Lemma py_pow_pos (c : Z) (exponent : nat) : 0 < c → 0 < py_pow c exponent.
Proof. intros Hc. unfold py_pow. apply Z.pow_pos_nonneg; lia. Qed.



(** ** The terminal shares of a run *)

Lemma seq_ascending (m : nat) : ∀ a, Sorted le (seq a m).
Proof.
  induction m as [| m IH]; intros a; simpl; constructor; [apply IH |].
  destruct m; simpl; constructor. lia.
Qed.

Lemma dict_keys_history (S : Simulation) :
  sim_inv S → dict_keys (history_tech_frequency S) = technologies_list S.
Proof.
  intros HS. unfold dict_keys.
  set (ks := map fst (map_to_list (history_tech_frequency S))).
  assert (Hperm : ks ≡ₚ technologies_list S).
  { apply NoDup_Permutation.
    - apply NoDup_fst_map_to_list.
    - rewrite (inv_tl _ HS). apply NoDup_seq.
    - intros t. unfold ks. rewrite list_elem_of_fmap. split.
      + intros ([t' h] & -> & Hin). apply elem_of_map_to_list in Hin.
        apply (inv_hist_dom _ HS). by exists h.
      + intros Ht. destruct (inv_hist_keys _ HS t Ht) as [h Hh].
        exists (t, h). split; [done |]. by apply elem_of_map_to_list. }
  apply (Sorted_unique le).
  - apply Sorted_merge_sort. apply _.
  - rewrite (inv_tl _ HS). apply seq_ascending.
  - by rewrite merge_sort_Permutation.
Qed.

Lemma last_market_shares_spec (S : Simulation) :
  sim_inv S → history_in_sync S →
  last_market_shares (history_tech_frequency S)
  = Ok (map (share_of S) (technologies_list S)).
Proof.
  intros HS Hsync. unfold last_market_shares.
  rewrite (dict_keys_history S HS). apply comprehension_Ok, Forall_forall.
  intros t Ht. destruct (Hsync t Ht) as (h & Hh).
  unfold dict_get. rewrite Hh. cbn [rbind]. apply index_from_end_1.
Qed.

Lemma Qsum_app (l1 l2 : list Q) : (Qsum (l1 ++ l2) == Qsum l1 + Qsum l2)%Q.
Proof.
  induction l1 as [| x l1 IH].
  - change (Qsum l2 == 0 + Qsum l2)%Q. ring.
  - change (x + Qsum (l1 ++ l2) == x + Qsum l1 + Qsum l2)%Q.
    rewrite IH. ring.
Qed.

Lemma Qsum_Permutation (l1 l2 : list Q) :
  l1 ≡ₚ l2 → (Qsum l1 == Qsum l2)%Q.
Proof.
  induction 1 as [| x l1 l2 _ IH | x y l | l1 l2 l3 _ IH1 _ IH2].
  - reflexivity.
  - change (x + Qsum l1 == x + Qsum l2)%Q. by rewrite IH.
  - change (y + (x + Qsum l) == x + (y + Qsum l))%Q. ring.
  - by rewrite IH1.
Qed.

Lemma Qsum_nonneg (l : list Q) : Forall (Qle 0) l → (0 <= Qsum l)%Q.
Proof.
  induction 1 as [| x l Hx _ IH]; [apply Qle_refl |].
  change (0 <= x + Qsum l)%Q. lra.
Qed.

Lemma Qsum_le_zero (l : list Q) :
  Forall (λ x, (x <= 0)%Q) l → (Qsum l <= 0)%Q.
Proof.
  induction 1 as [| x l Hx _ IH]; [apply Qle_refl |].
  change (x + Qsum l <= 0)%Q. lra.
Qed.

(** The top two of shares that are non-negative, not all zero, and sum
    to at most one. *)
Lemma top_two_of_shares (l : list Q) :
  (2 ≤ length l)%nat → Forall (Qle 0) l →
  (0 < Qsum l)%Q → (Qsum l <= 1)%Q →
  ∃ lms slms,
    largest_and_second_largest_MS l = Ok (lms, slms) ∧
    lms ∈ l ∧ slms ∈ l ∧ top_two_shares lms slms.
Proof.
  intros Hlen Hnn Hpos Hle.
  pose proof (np_sort_length l) as Hl.
  pose proof (merge_sort_Permutation Qle l) as Hperm.
  pose proof (StronglySorted_merge_sort Qle l) as Hsorted.
  fold (np_sort l) in Hperm, Hsorted.
  destruct (list_split_last_two (np_sort l)) as (front & b & a & Hs); [lia |].
  rewrite Hs in Hsorted, Hperm.
  destruct (sorted_tail_bounds _ _ _ Hsorted) as (Hba & _ & Ha).
  assert (Hin_a : a ∈ l).
  { rewrite <- Hperm. apply elem_of_app. right. right. left. }
  assert (Hin_b : b ∈ l).
  { rewrite <- Hperm. apply elem_of_app. right. left. }
  rewrite Forall_forall in Hnn.
  assert (Hsum : (Qsum l == Qsum front + (b + (a + 0)))%Q).
  { rewrite <- (Qsum_Permutation _ _ Hperm), Qsum_app. reflexivity. }
  assert (Hfront : (0 <= Qsum front)%Q).
  { apply Qsum_nonneg, Forall_forall. intros x Hx. apply Hnn.
    rewrite <- Hperm. apply elem_of_app. by left. }
  exists a, b. split; [| split; [done | split; [done |]]].
  - unfold largest_and_second_largest_MS. rewrite Hs.
    replace (front ++ [b; a]) with ((front ++ [b]) ++ [a])
      by (by rewrite <- app_assoc).
    rewrite index_from_end_1. simpl.
    rewrite <- app_assoc. simpl. by rewrite index_from_end_2.
  - pose proof (Hnn b Hin_b). repeat split; try done; [| lra].
    destruct (Qlt_le_dec 0 a) as [Hlt | Hge]; [done | exfalso].
    assert (Qsum l <= 0)%Q; [| lra].
    apply Qsum_le_zero, Forall_forall. intros x Hx.
    eapply Qle_trans; [| exact Hge]. apply Ha. by rewrite Hperm.
Qed.

(** The shares of all technologies sum to the fraction of adopters. *)
Lemma Qsum_shares (S : Simulation) :
  sim_inv S →
  (Qsum (map (share_of S) (technologies_list S))
   == inject_Z (adopters S) / inject_Z (n_agents S))%Q.
Proof.
  intros HS. pose proof (inject_Z_pos _ (inv_n_pos _ HS)) as Hn.
  rewrite <- (total_frequency_adopters S HS). unfold total_frequency.
  erewrite (map_ext_in (λ t, default 0 (tech_frequency S !! t))
              (λ t, count_tech t (agents_list S))).
  - rewrite <- Qsum_scaled by lra. by rewrite map_map.
  - intros t Ht. apply list_elem_of_In in Ht.
    by rewrite (inv_freq _ HS t Ht).
Qed.

(** ** Experiment *)

Lemma known_of_delivered (nx : NetworkX) (nt : string) (n : Z) rs G0 rs1 :
  generate_network nx nt n rs = Ok (G0, rs1) → known_network_type nt.
Proof.
  unfold generate_network, known_network_type.
  destruct (String.eqb_spec nt "Erdos-Renyi"); [tauto |].
  destruct (String.eqb_spec nt "Barabasi-Albert"); [tauto |].
  destruct (String.eqb_spec nt "Watts-Strogatz"); [tauto | done].
Qed.

(** One replication: a default simulation on at least six agents is
    constructed and run, and its terminal shares give a pair. *)
Lemma replication_spec (nx : NetworkX) (i : nat) (EX : Experiment) rs :
  6 ≤ agent_number EX →
  delivers nx (network_type EX) (agent_number EX) →
  ∃ lms slms rs',
    replication nx i EX rs
    = Ok (mkExperiment (network_type EX) (agent_number EX)
            (number_of_replications EX)
            (list_largest_m_shares EX ++ [lms])
            (list_second_largest_m_shares EX ++ [slms]), rs') ∧
    top_two_shares lms slms.
Proof.
  intros Hsix Hdel.
  set (n := agent_number EX) in *. set (nt := network_type EX) in *.
  destruct (Hdel rs) as (G0 & rs1 & Hgen & Horder & Hwf).
  assert (Hvalid : valid_configuration n 3 2 (1 # 5) nt 5000).
  { unfold valid_configuration, Qle. simpl.
    repeat split; try lia. eapply known_of_delivered, Hgen. }
  destruct (run_from_constructed nx n 3 2 (1 # 5) 2 nt 5000 rs G0 rs1
              Hvalid Hgen Horder Hwf
              (λ S S', (history_in_sync S → history_in_sync S') ∧
                       adopters S ≤ adopters S' ∧ fixed_setting S S'))
    as (S0 & rs0 & Hinit & Hadopt & Hsync & _ & _ & _ & Hn & Htl & Hrun).
  { intros S. split; [done |]. split; [lia | reflexivity]. }
  { intros S1 S2 S3 (A1 & A2 & A3) (B1 & B2 & B3).
    split; [auto |]. split; [lia | by etrans]. }
  { intros S S1 h t HS Hact HS1 Hrec. split; [| split].
    - intros _. exact (history_in_sync_step S S1 h t HS Hact HS1 Hrec).
    - by apply adopters_step.
    - by apply fixed_setting_step. }
  set (k := Z.to_nat (t_max S0 + 1)).
  destruct (Hrun k k ltac:(lia))
    as (Sf & rsf & _ & _ & Hk & _ & HSf & _ & (Hs & Ha & Hfix) & _).
  rewrite run_steps_all in Hk by (unfold k; lia).
  destruct Hfix as (_ & Hn' & _ & _ & _ & _ & _ & Htl' & _).
  specialize (Hs Hsync).
  pose proof (last_market_shares_spec Sf HSf Hs) as Hlast.
  rewrite Htl', Htl in Hlast.
  pose proof (Qsum_shares Sf HSf) as Hsum. rewrite Htl', Htl in Hsum.
  pose proof (inv_n_pos _ HSf) as Hnpos.
  pose proof (inject_Z_pos _ Hnpos) as Hnq.
  pose proof (total_frequency_le Sf HSf) as Htot.
  rewrite (total_frequency_adopters Sf HSf) in Htot.
  destruct (ratio_range (adopters Sf) (n_agents Sf)) as [_ Hle1];
    [lia | done |].
  assert (Hpos : (0 < inject_Z (adopters Sf) / inject_Z (n_agents Sf))%Q).
  { apply Qlt_shift_div_l; [done |].
    pose proof (inject_Z_pos (adopters Sf) ltac:(lia)). lra. }
  destruct (top_two_of_shares (map (share_of Sf) (py_range 3)))
    as (lms & slms & Htop & _ & _ & Hbounds).
  { simpl. lia. }
  { apply Forall_fmap, Forall_forall. intros t _.
    apply (share_of_range Sf t HSf). }
  { by rewrite Hsum. }
  { by rewrite Hsum. }
  exists lms, slms, rsf. split; [| done].
  unfold replication. fold n nt.
  rewrite (bind_Ok _ _ _ _ _ Hinit), (bind_Ok _ _ _ _ _ Hk).
  cbn [return_results snd].
  rewrite (bind_Ok _ _ _ _ _ (lift_Ok _ _ _ Hlast)).
  by rewrite (bind_Ok _ _ _ _ _ (lift_Ok _ _ _ Htop)).
Qed.

Lemma replications_spec (nx : NetworkX) (l : list nat) :
  ∀ (EX : Experiment) rs,
  6 ≤ agent_number EX →
  delivers nx (network_type EX) (agent_number EX) →
  ∃ EX' rs' l1 l2,
    for_each (replication nx) l EX rs = Ok (EX', rs') ∧
    network_type EX' = network_type EX ∧
    agent_number EX' = agent_number EX ∧
    number_of_replications EX' = number_of_replications EX ∧
    list_largest_m_shares EX' = list_largest_m_shares EX ++ l1 ∧
    list_second_largest_m_shares EX'
    = list_second_largest_m_shares EX ++ l2 ∧
    length l1 = length l ∧ Forall2 top_two_shares l1 l2.
Proof.
  induction l as [| i l IH]; intros EX rs Hsix Hdel.
  - exists EX, rs, [], []. rewrite !app_nil_r. by repeat split.
  - destruct (replication_spec nx i EX rs Hsix Hdel)
      as (lms & slms & rs1 & Hrep & Hb).
    destruct (IH (mkExperiment (network_type EX) (agent_number EX)
                    (number_of_replications EX)
                    (list_largest_m_shares EX ++ [lms])
                    (list_second_largest_m_shares EX ++ [slms]))
                rs1 Hsix Hdel)
      as (EX' & rs' & l1 & l2 & Hrun & E1 & E2 & E3 & E4 & E5 & Hlen & Hall).
    cbn in E1, E2, E3, E4, E5.
    exists EX', rs', (lms :: l1), (slms :: l2).
    cbn [for_each]. rewrite (bind_Ok _ _ _ _ _ Hrep).
    split; [done |]. repeat (split; [done |]).
    split; [| split; [| split]].
    + rewrite E4. cbn. by rewrite <- app_assoc.
    + rewrite E5. cbn. by rewrite <- app_assoc.
    + simpl. by rewrite Hlen.
    + by constructor.
Qed.

(** X9: an experiment on at least six agents, on a provider that delivers:
    every replication succeeds, each appends one pair, and every pair
    satisfies [0 <= second <= largest], [0 < largest] and
    [largest + second <= 1]. *)
Theorem experiment_collects_one_pair_per_replication
  (nx : NetworkX) (EX : Experiment) rs :
  6 ≤ agent_number EX →
  delivers nx (network_type EX) (agent_number EX) →
  ∃ EX' rs' l1 l2,
    Experiment_run nx EX rs = Ok (EX', rs') ∧
    collect_results EX'
    = (list_largest_m_shares EX ++ l1,
       list_second_largest_m_shares EX ++ l2) ∧
    length l1 = Z.to_nat (number_of_replications EX) ∧
    length l2 = Z.to_nat (number_of_replications EX) ∧
    Forall2 top_two_shares l1 l2.
Proof.
  intros Hsix Hdel.
  destruct (replications_spec nx (py_range (number_of_replications EX))
              EX rs Hsix Hdel)
    as (EX' & rs' & l1 & l2 & Hrun & _ & _ & _ & E4 & E5 & Hlen & Hall).
  unfold py_range in Hlen. rewrite length_seq in Hlen.
  exists EX', rs', l1, l2. split; [done |].
  split; [unfold collect_results; by rewrite E4, E5 |].
  split; [done |]. split; [| done].
  by rewrite <- (Forall2_length _ _ _ Hall).
Qed.

Lemma experiment_collects_one_pair_per_replication_witness :
  ∃ EX' rs' l1 l2,
    Experiment_run ring_networkx (Experiment_init "Erdos-Renyi" 6 2)
      (seeded example_stream) = Ok (EX', rs') ∧
    collect_results EX' = ([] ++ l1, [] ++ l2) ∧
    length l1 = 2%nat ∧ length l2 = 2%nat ∧
    Forall2 top_two_shares l1 l2.
Proof.
  apply (experiment_collects_one_pair_per_replication ring_networkx
           (Experiment_init "Erdos-Renyi" 6 2) (seeded example_stream)).
  - simpl. lia.
  - intros rs. exists (ring_graph 6), rs. split; [reflexivity |].
    split; [reflexivity |]. unfold graph_wf. repeat constructor.
Defined.

(** ** An experiment on too few agents *)

Lemma init_too_many_adopters (nx : NetworkX) (n K J : Z) (p : Q)
  (exponent : nat) (nt : string) (tmax : Z) rs G0 rs1 :
  generate_network nx nt n rs = Ok (G0, rs1) → order G0 = Z.to_nat n →
  Z.max 0 n < K * J →
  Simulation_init nx n K J p exponent nt tmax rs = Raise ValueError.
Proof.
  intros Hgen Horder Hsize. unfold Simulation_init.
  rewrite (bind_Ok _ _ _ _ _ Hgen).
  rewrite (bind_Raise _ _ _ ValueError); [done |].
  apply np_random_choice_noreplace_too_many.
  rewrite fresh_agents_length, Horder. lia.
Qed.



(** ** Technologies without adopters, and reconsidering to no effect *)

Lemma count_tech_members (t : nat) (agents nbs : list Agent) :
  Forall (λ a, a ∈ agents) nbs → count_tech t agents = 0 →
  count_tech t nbs = 0.
Proof.
  intros Hin Hzero.
  destruct (decide (count_tech t nbs = 0)) as [| Hne]; [done | exfalso].
  pose proof (count_tech_nonneg t nbs).
  destruct (count_tech_pos t nbs ltac:(lia)) as (a & Ha & Hta).
  rewrite Forall_forall in Hin. specialize (Hin a Ha).
  clear -Hin Hta Hzero. revert Hzero.
  induction agents as [| b agents IH]; [by inv Hin |].
  rewrite count_tech_cons. pose proof (count_tech_nonneg t agents).
  apply elem_of_cons in Hin as [<- | Hin].
  - rewrite decide_True by done. lia.
  - destruct (decide _); [lia |]. intros Hz. apply IH; [done | lia].
Qed.

(** For a positive exponent, an activation gives no adopter to a
    technology that has none. *)
Lemma activation_keeps_extinct (S S1 : Simulation) (t : nat) :
  sim_inv S → activation S S1 → (0 < choice_function_exponent S)%nat →
  count_tech t (agents_list S) = 0 → count_tech t (agents_list S1) = 0.
Proof.
  intros HS [| i me new freq nbs Hme Hnbs Hnew Hw Hupd] Hexp Hzero;
    [done |].
  destruct (get_neighbors_spec S i HS) as (nbs' & Hnbs' & Hin).
  { eapply lookup_lt_Some, Hme. }
  rewrite Hnbs in Hnbs'. injection Hnbs' as <-.
  assert (Hne : new ≠ t).
  { intros ->. rewrite (count_tech_members t _ _ Hin Hzero) in Hw.
    rewrite py_pow_zero in Hw; [lia |].
    by rewrite (inv_exponent _ HS _ _ Hme). }
  assert (Hme_t : technology me ≠ Some t).
  { intros Hmt. apply list_elem_of_lookup_2 in Hme.
    clear -Hme Hmt Hzero. revert Hzero.
    induction (agents_list S) as [| b agents IH]; [by inv Hme |].
    rewrite count_tech_cons. pose proof (count_tech_nonneg t agents).
    apply elem_of_cons in Hme as [<- | Hme].
    - rewrite decide_True by done. lia.
    - destruct (decide _); [lia |]. intros Hz. apply IH; [done | lia]. }
  simpl. rewrite (count_tech_alter t _ i me) by done.
  cbn [set_technology technology].
  rewrite decide_False by done.
  rewrite (decide_False (P := Some new = Some t)) by congruence. lia.
Qed.

(** X12: taking up the technology one already holds changes nothing: the
    agent is as before, and decrementing and incrementing the same
    counter restores the dictionary. *)
Theorem reconsidering_to_the_same_technology (S : Simulation) (i : nat)
  (me : Agent) (t : nat) :
  sim_inv S → agents_list S !! i = Some me → technology me = Some t →
  adopt S i t = S ∧
  update_counters (tech_frequency S) (Some t) (Some t)
  = Ok (tech_frequency S).
Proof.
  intros HS Hme Ht. split.
  - unfold adopt.
    assert (Hsame : alter (λ A, set_technology A (Some t)) i (agents_list S)
                    = agents_list S).
    { apply list_eq. intros j. destruct (decide (i = j)) as [<- | Hne].
      - rewrite list_lookup_alter_eq, Hme. simpl. f_equal.
        destruct me as [id tech e]. simpl in *. by subst.
      - by rewrite list_lookup_alter_ne. }
    rewrite Hsame. by destruct S.
  - pose proof (inv_tech _ HS _ _ _ Hme Ht) as Hin.
    pose proof (inv_freq _ HS t Hin) as Hf.
    unfold update_counters, dict_add. rewrite Hf. cbn [rbind].
    rewrite lookup_insert_eq. f_equal.
    rewrite insert_insert_eq.
    replace (count_tech t (agents_list S) + -1 + 1)
      with (count_tech t (agents_list S)) by lia.
    by apply insert_id.
Qed.

Lemma reconsidering_to_the_same_technology_witness :
  adopt (example_simulation 2) 1 0 = example_simulation 2 ∧
  update_counters (tech_frequency (example_simulation 2))
    (Some 0%nat) (Some 0%nat)
  = Ok (tech_frequency (example_simulation 2)).
Proof.
  apply (reconsidering_to_the_same_technology (example_simulation 2) 1
           (mkAgent 1 (Some 0%nat) 2) 0).
  - apply example_simulation_inv.
  - reflexivity.
  - reflexivity.
Defined.

Section positive_exponent_runs.

Context (nx : NetworkX) (n K J : Z) (p : Q) (exponent : nat)
  (nt : string) (tmax : Z) (rs : RandomState) (G0 : Graph)
  (rs1 : RandomState).

Hypothesis Hvalid : valid_configuration n K J p nt tmax.
Hypothesis Hgen : generate_network nx nt n rs = Ok (G0, rs1).
Hypothesis Horder : order G0 = Z.to_nat n.
Hypothesis Hwf : graph_wf G0.
Hypothesis Hexp : (0 < exponent)%nat.


End positive_exponent_runs.

(** ** The further properties on the example population *)

Lemma seeding_is_even_witness :
  ∃ S0 rs0,
    Simulation_init ring_networkx 6 2 1 (1 # 5) 2 "Erdos-Renyi" 3
      (seeded example_stream) = Ok (S0, rs0) ∧
    (∀ t, t ∈ py_range 2 →
          tech_frequency S0 !! t = Some 1 ∧
          count_tech t (agents_list S0) = 1 ∧
          history_tech_frequency S0 !! t
          = Some [(inject_Z 1 / inject_Z 6)%Q]) ∧
    adopters S0 = 2 * 1 ∧
    Z.of_nat (length (agents_list S0)) - adopters S0 = 6 - 2 * 1.
Proof.
  apply (seeding_is_even ring_networkx 6 2 1 (1 # 5) 2
           "Erdos-Renyi" 3 (seeded example_stream)
           (ring_graph 6) (seeded example_stream));
    example_hypotheses.
Defined.







